(** * The stylelint [indentation] rule (src/rules/indentation/index.js)

    A shallow embedding of the rule and of the few JavaScript primitives it
    uses, followed by the properties of the level inference, of the
    hierarchy map and of the whitespace checks. *)

From Stdlib Require Import ZArith String Ascii List Lia DecimalString.
From stdpp Require Import base gmap list strings.

#[local] Open Scope Z_scope.
#[local] Set Warnings "-register-all".

(* ===================================================================== *)
(** ** JavaScript primitives used by the rule *)
(* ===================================================================== *)

Module JS.

(** Strings are sequences of code units; [ascii] covers the units 0-255. *)
Definition LF : ascii := "010"%char.
Definition newline : string := String LF EmptyString.

(** [s.indexOf(t)]: position of the first occurrence of [t] in [s], or -1. *)
Fixpoint indexOf_at (i : Z) (s t : string) : Z :=
  if String.prefix t s then i
  else match s with
       | EmptyString => -1
       | String _ s' => indexOf_at (i + 1) s' t
       end.

Definition indexOf (s t : string) : Z := indexOf_at 0 s t.

(** [s.lastIndexOf(t)]: position of the last occurrence of [t], or -1. *)
Fixpoint lastIndexOf_at (i : Z) (s t : string) : Z :=
  match s with
  | EmptyString => if String.prefix t s then i else -1
  | String _ s' =>
      let r := lastIndexOf_at (i + 1) s' t in
      if r =? -1 then (if String.prefix t s then i else -1) else r
  end.

Definition lastIndexOf (s t : string) : Z := lastIndexOf_at 0 s t.

Fixpoint drop (n : nat) (s : string) : string :=
  match n, s with
  | O, _ => s
  | S _, EmptyString => EmptyString
  | S n', String _ s' => drop n' s'
  end.

(** [s.slice(start)]: a negative [start] counts from the end. *)
Definition slice (s : string) (start : Z) : string :=
  let len := Z.of_nat (String.length s) in
  let from := if start <? 0 then Z.max (len + start) 0 else Z.min start len in
  drop (Z.to_nat from) s.

(** lodash [repeat(s, n)]: [n] copies of [s], the empty string for [n < 1]. *)
Fixpoint repeat_nat (s : string) (n : nat) : string :=
  match n with
  | O => EmptyString
  | S n' => s +:+ repeat_nat s n'
  end.

Definition repeat (s : string) (n : Z) : string := repeat_nat s (Z.to_nat n).

(** The class \s on code units below 256: TAB, LF, VT, FF, CR, space
    and the no-break space. *)
Definition is_space (c : ascii) : bool :=
  let n := N_of_ascii c in
  ((9 <=? n) && (n <=? 13) || (n =? 32) || (n =? 160))%N.

(** [exec] of the regexp "start of input, a captured greedy run of \s,
    one \S" on [s]: [Some g] with [g] the first capture group when the
    regexp matches, [None] for [null].  The greedy run takes the
    whole leading run of whitespace; \S then needs one more character.
    Backtracking cannot help: every shorter run is followed by a
    whitespace character. *)
Fixpoint exec_ws_nonws (s : string) : option string :=
  match s with
  | EmptyString => None
  | String c s' =>
      if is_space c then String c <$> exec_ws_nonws s' else Some EmptyString
  end.

(** Template-literal conversion of an integral number. *)
Definition toString (n : Z) : string := NilZero.string_of_int (Z.to_int n).

(** [ToString] of a possibly [undefined] string argument. *)
Definition argString (o : option string) : string :=
  match o with Some s => s | None => "undefined"%string end.

(** Truthiness of a possibly [undefined] string. *)
Definition truthy (o : option string) : bool :=
  match o with
  | Some EmptyString | None => false
  | Some (String _ _) => true
  end.

End JS.

(* ===================================================================== *)
(** ** Data model *)
(* ===================================================================== *)

Inductive node_type := rule | atrule | decl | comment.

Definition node_type_eqb (a b : node_type) : bool :=
  match a, b with
  | rule, rule | atrule, atrule | decl, decl | comment, comment => true
  | _, _ => false
  end.

(** A node of the syntax tree.  [oid] is the identity of the JavaScript
    object (the key under which the [Map] files the node); the other fields
    are the properties the rule reads.  [node.parent] and [node.prev()] are
    supplied by the traversal, which knows the path to the node. *)
Inductive node : Type := mkNode {
  oid : positive;
  type : node_type;
  before : string;
  after : option string;
  selector : option string;
  value : option string;
  start_line : Z;            (* node.source.start.line *)
  end_line : Z;              (* node.source.end.line *)
  nodes : list node
}.

(** The root container: only its children and [root.first] are used. *)
Record root := mkRoot { root_nodes : list node }.

Definition first (r : root) : option node := head (root_nodes r).

(** What [node.parent] or a recorded superordinate can refer to. *)
Inductive container := Root | Inner (n : node).

Definition parent (ancestors : list node) : container :=
  match ancestors with
  | [] => Root
  | p :: _ => Inner p
  end.

Definition container_selector (c : container) : option string :=
  match c with
  | Root => None
  | Inner n => selector n
  end.

(** The value stored by [hierarchyMap.set]: [{ superordinate, level }]. *)
Record entry := mkEntry { superordinate : container; level : Z }.

Abbreviation hmap := (gmap positive entry).

(** [hierarchyMap.get(c)].  The root is never passed to [hierarchyMap.set],
    so looking it up misses. *)
Definition lookupC (hm : hmap) (c : container) : option entry :=
  match c with
  | Root => None
  | Inner n => hm !! oid n
  end.

(** The first argument of the rule. *)
Inductive space_t := tab | spaces (n : Z).

Record options_t := mkOptions {
  except : list string;
  hierarchicalSelectors : bool
}.

Record config := mkConfig {
  space : space_t;
  options : option options_t
}.

(** A call of [report]. *)
Record warning := mkWarning {
  message : string;
  wnode : positive;
  line : Z
}.

(* ===================================================================== *)
(** ** Utilities imported from "../../utils" *)
(* ===================================================================== *)

Module Utils.

(** Modelled from the spec: [optionsHaveException] is imported from the
    utilities; the spec describes it as "the exception is configured",
    that is, the name occurs in [options.except]. *)
Definition optionsHaveException (o : option options_t) (name : string) : bool :=
  match o with
  | None => false
  | Some o => existsb (String.eqb name) (except o)
  end.

(** Modelled from the spec: [ruleMessages] is imported from the utilities;
    by the spec the message is exactly the text the rule builds. *)
Definition ruleMessages (ruleName : string) (expected : string → string)
  : string → string := expected.

(** Modelled from the spec: [styleSearch] is imported from the utilities;
    by the spec the callback runs once "for every newline occurrence",
    in order, with the occurrence's start index and its 1-based ordinal. *)
Fixpoint styleSearch_at (i count : Z) (source target : string) : list (Z * Z) :=
  match source with
  | EmptyString => []
  | String _ source' =>
      if String.prefix target source
      then (i, count) :: styleSearch_at (i + 1) (count + 1) source' target
      else styleSearch_at (i + 1) count source' target
  end.

Definition styleSearch (source target : string) : list (Z * Z) :=
  styleSearch_at 0 1 source target.

End Utils.

(* ===================================================================== *)
(** ** Effects: the module-level map, the result and abrupt completion *)
(* ===================================================================== *)

(** [hierarchyMap] is the module-level [Map]; [result] collects the
    warnings passed to [report], oldest first.  [sets] is a ghost log of
    the calls of [hierarchyMap.set], oldest first; no code reads it. *)
Record state := mkState {
  hierarchyMap : hmap;
  result : list warning;
  sets : list (positive * entry)
}.

(** How a piece of code ends: normally, by a [TypeError], or not at all
    (the model ran out of fuel for a loop). *)
Inductive completion (A : Type) :=
| Normal (a : A)
| Throw
| Diverge.
Arguments Normal {A} a.
Arguments Throw {A}.
Arguments Diverge {A}.

Definition M (A : Type) : Type := state → completion A * state.

#[export] Instance M_ret : MRet M := λ A a s, (Normal a, s).
#[export] Instance M_bind : MBind M := λ A B f m s,
  match m s with
  | (Normal a, s') => f a s'
  | (Throw, s') => (Throw, s')
  | (Diverge, s') => (Diverge, s')
  end.

Definition throw {A} : M A := λ s, (Throw, s).
Definition diverge {A} : M A := λ s, (Diverge, s).
Definition getMap : M hmap := λ s, (Normal (hierarchyMap s), s).
Definition when (b : bool) (m : M unit) : M unit := if b then m else mret tt.

(** [arr.forEach(f)] for an effectful [f]. *)
Fixpoint forEach {A} (f : A → M unit) (l : list A) : M unit :=
  match l with
  | [] => mret tt
  | x :: l' => f x ;; forEach f l'
  end.

Definition report (message : string) (n : node) (line : Z) : M unit := λ s,
  (Normal tt,
   {| hierarchyMap := hierarchyMap s;
      result := result s ++ [mkWarning message (oid n) line];
      sets := sets s |}).

(* ===================================================================== *)
(** ** The rule *)
(* ===================================================================== *)

Definition ruleName : string := "indentation".

Definition messages_expected : string → string :=
  Utils.ruleMessages ruleName (λ x, "Expected indentation of " +:+ x)%string.

Definition addNodeToHierarchy (n : node) (sup : container) (lvl : Z) : M unit := λ s,
  let e := mkEntry sup lvl in
  (Normal tt,
   {| hierarchyMap := <[oid n := e]> (hierarchyMap s);
      result := result s;
      sets := sets s ++ [(oid n, e)] |}).

Section Rule.

Variable cfg : config.

Definition isTab : bool :=
  match space cfg with tab => true | spaces _ => false end.

Definition indentChar : string :=
  match space cfg with
  | tab => String "009"%char EmptyString
  | spaces n => JS.repeat " " n
  end.

Definition warningWord : string := if isTab then "tab" else "space".

Definition legibleExpectation (lvl line : Z) : string :=
  let count := match space cfg with tab => lvl | spaces n => lvl * n end in
  let quantifiedWarningWord :=
    if count =? 1 then warningWord else warningWord +:+ "s" in
  JS.toString count +:+ " " +:+ quantifiedWarningWord
    +:+ " at line " +:+ JS.toString line.

Definition hierarchical : bool :=
  match options cfg with
  | Some o => hierarchicalSelectors o
  | None => false
  end.

(** [indentationLevel(node, level = 0)].  [ancestors] lists [node.parent],
    its parent and so on, up to but without the root; the parent is the
    root exactly when the list is empty. *)
Fixpoint indentationLevel (hm : hmap) (n : node) (ancestors : list node)
    (lvl : Z) : Z :=
  match ancestors with
  | [] => lvl
  | p :: ancestors' =>
      let newLevel :=
        match hm !! oid p with
        | Some e => level e + 1
        | None => indentationLevel hm p ancestors' (lvl + 1)
        end in
      if Utils.optionsHaveException (options cfg) "block"
         && negb (node_type_eqb (type n) decl)
      then newLevel - 1
      else newLevel
  end.

(** The body shared by [checkValue] and [checkSelector]: the callback
    given to [styleSearch]. *)
Definition checkNewline (n : node) (text : string) (lvl : Z)
    (m : Z * Z) : M unit :=
  let '(startIndex, newlineCount) := m in
  match JS.exec_ws_nonws (JS.slice text (startIndex + 1)) with
  | None => throw
  | Some postNewlineActual =>
      when (negb (String.eqb postNewlineActual (JS.repeat indentChar lvl)))
        (let line := start_line n + newlineCount in
         report (messages_expected (legibleExpectation lvl line)) n line)
  end.

Definition checkValue (n : node) (v : string) (declLevel : Z) : M unit :=
  if JS.indexOf v JS.newline =? -1 then mret tt
  else
    let valueLevel :=
      if Utils.optionsHaveException (options cfg) "value"
      then declLevel else declLevel + 1 in
    forEach (checkNewline n v valueLevel) (Utils.styleSearch v JS.newline).

Definition checkSelector (n : node) (sel : string) (ruleLevel : Z) : M unit :=
  if JS.indexOf sel JS.newline =? -1 then mret tt
  else forEach (checkNewline n sel ruleLevel) (Utils.styleSearch sel JS.newline).

End Rule.

(** The [while (maybePeer)] loop of [hierarchicalSelectorsLevel].  It only
    reads the map; [Normal (Some info)] is the entry of the peer found,
    [Normal None] the exit by [maybePeer = false].  Every test of the loop
    condition uses one unit of fuel. *)
Fixpoint peerSearch (fuel : nat) (hm : hmap) (sel : string)
    (maybePeer : container) : completion (option entry) :=
  match fuel with
  | O => Diverge
  | S fuel' =>
      match lookupC hm maybePeer with
      | Some maybePeerInfo =>
          if JS.indexOf sel
               (JS.argString (container_selector (superordinate maybePeerInfo))) =? 0
          then Normal (Some maybePeerInfo)
          else peerSearch fuel' hm sel (superordinate maybePeerInfo)
      | None => Normal None
      end
  end.

Definition isRule (n : node) : bool := node_type_eqb (type n) rule.

Definition hierarchicalSelectorsLevel (fuel : nat) (n : node)
    (prev : option node) (nodeLevel : Z) : M Z :=
  match prev with
  | None => mret nodeLevel
  | Some prevNode =>
      if negb (isRule n) || negb (isRule prevNode) then mret nodeLevel
      else
        match selector n with
        | None => throw        (* undefined.indexOf *)
        | Some sel =>
            hm ← getMap;
            if JS.indexOf sel (JS.argString (selector prevNode)) =? 0 then
              let expectedLevel :=
                match hm !! oid prevNode with
                | Some e => level e + 1
                | None => nodeLevel + 1
                end in
              addNodeToHierarchy n (Inner prevNode) expectedLevel;;
              mret expectedLevel
            else
              match peerSearch fuel hm sel (Inner prevNode) with
              | Normal (Some maybePeerInfo) =>
                  addNodeToHierarchy n (superordinate maybePeerInfo)
                    (level maybePeerInfo);;
                  mret (level maybePeerInfo)
              | Normal None => mret nodeLevel
              | Throw => throw
              | Diverge => diverge
              end
        end
  end.

Section Check.

Variable cfg : config.
Variable fuel : nat.
Variable r : root.

Definition isFirst (n : node) : bool :=
  match first r with
  | Some f => Pos.eqb (oid f) (oid n)
  | None => false
  end.

(** Lines 50-60 of the callback: the level of the node, and its entry. *)
Definition nodeLevelOf (ancestors : list node) (prev : option node)
    (n : node) : M Z :=
  hm ← getMap;
  let nodeLevel := indentationLevel cfg hm n ancestors 0 in
  if hierarchical cfg
  then hierarchicalSelectorsLevel fuel n prev nodeLevel
  else addNodeToHierarchy n (parent ancestors) nodeLevel;;
       mret nodeLevel.

(** Lines 64-85 of the callback: the whitespace before the node. *)
Definition checkBefore (n : node) (nodeLevel : Z)
    (expectedWhitespace : string) : M unit :=
  let inspectBefore :=
    isFirst n || negb (JS.indexOf (before n) JS.newline =? -1) in
  when (inspectBefore
        && negb (String.eqb
             (JS.slice (before n) (JS.lastIndexOf (before n) JS.newline + 1))
             expectedWhitespace))
    (report (messages_expected (legibleExpectation cfg nodeLevel (start_line n)))
       n (start_line n)).

(** Lines 87-99 of the callback: the whitespace before the closing brace. *)
Definition checkAfter (n : node) (nodeLevel : Z)
    (expectedWhitespace : string) : M unit :=
  when (match after n with
        | Some a =>
            JS.truthy (Some a)
            && negb (JS.indexOf a JS.newline =? -1)
            && negb (String.eqb
                 (JS.slice a (JS.lastIndexOf a JS.newline + 1))
                 expectedWhitespace)
        | None => false
        end)
    (report (messages_expected (legibleExpectation cfg nodeLevel (end_line n)))
       n (end_line n)).

(** The function given to [root.eachInside]. *)
Definition callback (ancestors : list node) (prev : option node)
    (n : node) : M unit :=
  if node_type_eqb (type n) comment then mret tt
  else
    nodeLevel ← nodeLevelOf ancestors prev n;
    let expectedWhitespace := JS.repeat (indentChar cfg) nodeLevel in
    checkBefore n nodeLevel expectedWhitespace;;
    checkAfter n nodeLevel expectedWhitespace;;
    match value n with
    | Some v => when (JS.truthy (Some v)) (checkValue cfg n v nodeLevel)
    | None => mret tt
    end;;
    match selector n with
    | Some sel => when (JS.truthy (Some sel)) (checkSelector cfg n sel nodeLevel)
    | None => mret tt
    end.

(** [container.eachInside(callback)]: the callback on each child, then on
    the child's own children when the child is a container, in order. *)
Fixpoint walk (ancestors : list node) (prev : option node) (n : node) : M unit :=
  callback ancestors prev n;;
  match n with
  | mkNode _ ty _ _ _ _ _ _ children =>
      match ty with
      | rule | atrule =>
          (fix each (prev : option node) (l : list node) : M unit :=
             match l with
             | [] => mret tt
             | c :: l' => walk (n :: ancestors) prev c;; each (Some c) l'
             end) None children
      | decl | comment => mret tt
      end
  end.

Fixpoint eachInside (ancestors : list node) (prev : option node)
    (l : list node) : M unit :=
  match l with
  | [] => mret tt
  | c :: l' => walk ancestors prev c;; eachInside ancestors (Some c) l'
  end.

(** The function returned by the rule, applied to [root]. *)
Definition check : M unit := eachInside [] None (root_nodes r).

End Check.

(** One invocation of the returned function: it finds the module-level map
    as earlier invocations left it and is given an empty result. *)
Definition invoke (cfg : config) (fuel : nat) (r : root) (hm : hmap)
  : completion unit * state :=
  check cfg fuel r (mkState hm [] []).

(* ===================================================================== *)
(** ** Facts about the primitives *)
(* ===================================================================== *)

Module JSFacts.
Import JS.

Lemma prefix_app (t u : string) : String.prefix t (t +:+ u) = true.
Proof.
  induction t as [|c t IH]; simpl.
  - by destruct u.
  - destruct (ascii_dec c c); [exact IH | congruence].
Qed.

Lemma prefix_refl (t : string) : String.prefix t t = true.
Proof.
  induction t as [|c t IH]; simpl; [done|].
  destruct (ascii_dec c c); [exact IH | congruence].
Qed.

Lemma indexOf_at_range (s t : string) (i : Z) :
  indexOf_at i s t = -1 ∨ i ≤ indexOf_at i s t.
Proof.
  revert i; induction s as [|c s IH]; intros i; cbn [indexOf_at].
  - destruct (String.prefix t EmptyString); [right; lia | by left].
  - destruct (String.prefix t (String c s)); [right; lia|].
    destruct (IH (i + 1)) as [->| ?]; [by left | right; lia].
Qed.

(** [s.indexOf(t) === 0] is the test "[s] starts with [t]". *)
Lemma indexOf_zero (s t : string) :
  (indexOf s t =? 0) = String.prefix t s.
Proof.
  unfold indexOf. destruct s as [|c s]; cbn [indexOf_at].
  - by destruct (String.prefix t EmptyString).
  - destruct (String.prefix t (String c s)); [done|].
    destruct (indexOf_at_range s t (0 + 1)) as [->| ?]; [done|].
    apply Z.eqb_neq; lia.
Qed.

End JSFacts.

(* ===================================================================== *)
(** ** Reasoning about the monad and the traversal *)
(* ===================================================================== *)

Lemma bind_run {A B} (m : M A) (f : A → M B) (s : state) :
  (m ≫= f) s =
  match m s with
  | (Normal a, s') => f a s'
  | (Throw, s') => (Throw, s')
  | (Diverge, s') => (Diverge, s')
  end.
Proof. reflexivity. Qed.

Section NodeInduction.
Variable P : node → Prop.
Hypothesis step : ∀ i ty b a sel v l1 l2 ch,
  Forall P ch → P (mkNode i ty b a sel v l1 l2 ch).

Fixpoint node_forall_ind (n : node) : P n :=
  match n with
  | mkNode i ty b a sel v l1 l2 ch =>
      step i ty b a sel v l1 l2 ch
        ((fix go (l : list node) : Forall P l :=
            match l with
            | [] => @List.Forall_nil _ P
            | c :: l' => @List.Forall_cons _ P c l' (node_forall_ind c) (go l')
            end) ch)
  end.
End NodeInduction.

Definition isContainer (n : node) : bool :=
  match type n with
  | rule | atrule => true
  | decl | comment => false
  end.

Lemma walk_unfold cfg fuel r ancestors prev n :
  walk cfg fuel r ancestors prev n =
  (callback cfg fuel r ancestors prev n;;
   if isContainer n then eachInside cfg fuel r (n :: ancestors) None (nodes n)
   else mret tt).
Proof.
  destruct n as [i ty b a sel v l1 l2 ch]; simpl.
  f_equal. unfold isContainer; simpl.
  assert (Heach : ∀ l p,
    (fix each (prev0 : option node) (l0 : list node) {struct l0} : M () :=
       match l0 with
       | [] => mret ()
       | c :: l' =>
           walk cfg fuel r (mkNode i ty b a sel v l1 l2 ch :: ancestors) prev0 c;;
           each (Some c) l'
       end) p l
    = eachInside cfg fuel r (mkNode i ty b a sel v l1 l2 ch :: ancestors) p l).
  { induction l as [|c l IH]; intros p; [done|]. simpl. by rewrite IH. }
  destruct ty; try done; by rewrite Heach.
Qed.

(** *** State invariants *)

Definition preserves {A} (P : state → Prop) (m : M A) : Prop :=
  ∀ s, P s → P (m s).2.

Lemma preserves_ret {A} P (a : A) : preserves P (mret a).
Proof. by intros s. Qed.

Lemma preserves_throw {A} P : preserves P (@throw A).
Proof. by intros s. Qed.

Lemma preserves_diverge {A} P : preserves P (@diverge A).
Proof. by intros s. Qed.

Lemma preserves_getMap P : preserves P getMap.
Proof. by intros s. Qed.

Lemma preserves_bind {A B} P (m : M A) (f : A → M B) :
  preserves P m → (∀ a, preserves P (f a)) → preserves P (m ≫= f).
Proof.
  intros Hm Hf s Hs. rewrite bind_run. specialize (Hm s Hs).
  destruct (m s) as [[a| |] s']; simpl in *; [by apply Hf | done | done].
Qed.

Lemma preserves_when P b (m : M unit) : preserves P m → preserves P (when b m).
Proof. destruct b; [done | intros _; apply preserves_ret]. Qed.

Lemma preserves_forEach {A} P (f : A → M unit) l :
  (∀ x, preserves P (f x)) → preserves P (forEach f l).
Proof.
  intros Hf. induction l as [|x l IH]; simpl.
  - apply preserves_ret.
  - apply preserves_bind; [apply Hf | intros _; exact IH].
Qed.

Create HintDb preserves.
#[local] Hint Resolve preserves_ret preserves_throw preserves_diverge
  preserves_getMap preserves_when : preserves.

(** An invariant kept by the callback is kept by the whole traversal. *)
Section TraversalInvariant.
Variables (cfg : config) (fuel : nat) (r : root) (P : state → Prop).
Hypothesis Hcallback : ∀ ancestors prev n,
  preserves P (callback cfg fuel r ancestors prev n).

Lemma preserves_each_of_walk l :
  Forall (λ c, ∀ ancestors prev,
            preserves P (walk cfg fuel r ancestors prev c)) l →
  ∀ ancestors prev, preserves P (eachInside cfg fuel r ancestors prev l).
Proof.
  induction 1 as [|c l Hc _ IHl]; intros ancestors prev; simpl.
  - apply preserves_ret.
  - apply preserves_bind; [apply Hc | intros _; apply IHl].
Qed.

Lemma preserves_walk n : ∀ ancestors prev,
  preserves P (walk cfg fuel r ancestors prev n).
Proof.
  induction n as [i ty b a sel v l1 l2 ch IH] using node_forall_ind.
  intros ancestors prev. rewrite walk_unfold.
  apply preserves_bind; [apply Hcallback|]. intros _.
  destruct (isContainer _); [|apply preserves_ret].
  by apply preserves_each_of_walk.
Qed.

Lemma preserves_eachInside l : ∀ ancestors prev,
  preserves P (eachInside cfg fuel r ancestors prev l).
Proof.
  apply preserves_each_of_walk, Forall_forall. intros c _. apply preserves_walk.
Qed.

Lemma preserves_check : preserves P (check cfg fuel r).
Proof. apply preserves_eachInside. Qed.
End TraversalInvariant.

(* ===================================================================== *)
(** ** The violation message *)
(* ===================================================================== *)

(** The message format in the words of the specification. *)
Module MessageForm.

Definition count (cfg : config) (lvl : Z) : Z :=
  match space cfg with
  | tab => lvl
  | spaces indentSize => lvl * indentSize
  end.

Definition unit_word (cfg : config) : string :=
  match space cfg with
  | tab => "tab"
  | spaces _ => "space"
  end.

Definition plural (N : Z) : string := if decide (N = 1) then "" else "s".

Definition text (cfg : config) (lvl line : Z) : string :=
  "Expected indentation of " +:+ JS.toString (count cfg lvl) +:+ " "
    +:+ unit_word cfg +:+ plural (count cfg lvl)
    +:+ " at line " +:+ JS.toString line.

Definition has_form (cfg : config) (w : warning) : Prop :=
  ∃ lvl, message w = text cfg lvl (line w).

End MessageForm.

Lemma expected_message_form cfg lvl line :
  messages_expected (legibleExpectation cfg lvl line)
  = MessageForm.text cfg lvl line.
Proof.
  unfold messages_expected, Utils.ruleMessages, legibleExpectation,
    MessageForm.text, MessageForm.plural, MessageForm.count,
    MessageForm.unit_word, warningWord, isTab.
  destruct (space cfg) as [|n].
  - destruct (Z.eqb_spec lvl 1); case_decide; try lia; reflexivity.
  - destruct (Z.eqb_spec (lvl * n) 1); case_decide; try lia; reflexivity.
Qed.

Definition well_formed_result (cfg : config) (s : state) : Prop :=
  Forall (MessageForm.has_form cfg) (result s).

Lemma preserves_report_form cfg lvl n line :
  preserves (well_formed_result cfg)
    (report (messages_expected (legibleExpectation cfg lvl line)) n line).
Proof.
  intros s Hs. unfold well_formed_result in *; simpl.
  apply Forall_app; split; [done|]. constructor; [|constructor].
  exists lvl; simpl. apply expected_message_form.
Qed.

Lemma preserves_add_form cfg n sup lvl :
  preserves (well_formed_result cfg) (addNodeToHierarchy n sup lvl).
Proof. by intros s Hs. Qed.

Lemma preserves_hierarchical_form cfg fuel n prev lvl :
  preserves (well_formed_result cfg) (hierarchicalSelectorsLevel fuel n prev lvl).
Proof.
  unfold hierarchicalSelectorsLevel.
  destruct prev as [p|]; [|apply preserves_ret].
  destruct (_ || _); [apply preserves_ret|].
  destruct (selector n) as [sel|]; [|apply preserves_throw].
  apply preserves_bind; [apply preserves_getMap|]; intros hm.
  destruct (_ =? 0).
  - apply preserves_bind; [apply preserves_add_form | intros _; apply preserves_ret].
  - destruct (peerSearch _ _ _ _) as [[e|]| |];
      auto using preserves_ret, preserves_throw, preserves_diverge.
    apply preserves_bind; [apply preserves_add_form | intros _; apply preserves_ret].
Qed.

Lemma preserves_checkNewline_form cfg n text lvl m :
  preserves (well_formed_result cfg) (checkNewline cfg n text lvl m).
Proof.
  unfold checkNewline. destruct m as [i k].
  destruct (JS.exec_ws_nonws _); [|apply preserves_throw].
  apply preserves_when, preserves_report_form.
Qed.

Lemma preserves_callback_form cfg fuel r ancestors prev n :
  preserves (well_formed_result cfg) (callback cfg fuel r ancestors prev n).
Proof.
  unfold callback. destruct (node_type_eqb _ _); [apply preserves_ret|].
  apply preserves_bind.
  { unfold nodeLevelOf. apply preserves_bind; [apply preserves_getMap|]; intros hm.
    destruct (hierarchical cfg); [apply preserves_hierarchical_form|].
    apply preserves_bind; [apply preserves_add_form | intros _; apply preserves_ret]. }
  intros lvl. apply preserves_bind.
  { apply preserves_when, preserves_report_form. }
  intros _. apply preserves_bind.
  { apply preserves_when, preserves_report_form. }
  intros _. apply preserves_bind.
  { destruct (value n); [|apply preserves_ret]. apply preserves_when.
    unfold checkValue. destruct (_ =? -1); [apply preserves_ret|].
    apply preserves_forEach; intros m; apply preserves_checkNewline_form. }
  intros _. destruct (selector n); [|apply preserves_ret]. apply preserves_when.
  unfold checkSelector. destruct (_ =? -1); [apply preserves_ret|].
  apply preserves_forEach; intros m; apply preserves_checkNewline_form.
Qed.

(** C6: every violation message reads "Expected indentation of <N> <unit>[s]
    at line <L>": this is the text built for each report, every warning of
    an invocation carries it with its own line as <L>, N is the level in tab
    mode and level times the indent size in space mode, the unit word gets
    its "s" exactly when N is not 1, and level 0 in tab mode reads
    "Expected indentation of 0 tabs at line <L>". *)
Theorem C6_message_format (cfg : config) :
  (∀ lvl line,
     messages_expected (legibleExpectation cfg lvl line)
     = "Expected indentation of "
         +:+ JS.toString (match space cfg with tab => lvl | spaces k => lvl * k end)
         +:+ " " +:+ (match space cfg with tab => "tab" | spaces _ => "space" end)
         +:+ (if decide ((match space cfg with tab => lvl | spaces k => lvl * k end) = 1)
              then "" else "s")
         +:+ " at line " +:+ JS.toString line)
  ∧ (∀ fuel r hm,
       Forall (MessageForm.has_form cfg) (result (invoke cfg fuel r hm).2))
  ∧ (∀ o line,
       messages_expected (legibleExpectation (mkConfig tab o) 0 line)
       = "Expected indentation of 0 tabs at line " +:+ JS.toString line).
Proof.
  split; [|split].
  - intros lvl line. apply expected_message_form.
  - intros fuel r hm. unfold invoke.
    apply (preserves_check cfg fuel r (well_formed_result cfg)).
    + intros; apply preserves_callback_form.
    + constructor.
  - intros o line. reflexivity.
Qed.

(* ===================================================================== *)
(** ** Newlines and whitespace runs, in the words of the specification *)
(* ===================================================================== *)

Module Text.

Fixpoint contains_newline (s : string) : bool :=
  match s with
  | EmptyString => false
  | String c s' => if Ascii.eqb c JS.LF then true else contains_newline s'
  end.

(** Everything after the last newline; the whole text without one. *)
Fixpoint after_last_newline (s : string) : string :=
  match s with
  | EmptyString => EmptyString
  | String c s' =>
      if contains_newline s' then after_last_newline s'
      else if Ascii.eqb c JS.LF then s' else s
  end.

(** For each newline of the text, in order, the text that follows it. *)
Fixpoint after_newlines (s : string) : list string :=
  match s with
  | EmptyString => []
  | String c s' =>
      if Ascii.eqb c JS.LF then s' :: after_newlines s' else after_newlines s'
  end.

(** The run of whitespace at the start of a text. *)
Fixpoint whitespace_run (s : string) : string :=
  match s with
  | EmptyString => EmptyString
  | String c s' =>
      if JS.is_space c then String c (whitespace_run s') else EmptyString
  end.

(** Some character of the text is not whitespace. *)
Fixpoint has_nonspace (s : string) : bool :=
  match s with
  | EmptyString => false
  | String c s' => negb (JS.is_space c) || has_nonspace s'
  end.

End Text.

Module TextFacts.
Import JS Text.

Lemma prefix_newline (s : string) :
  String.prefix newline s =
  match s with
  | EmptyString => false
  | String c _ => Ascii.eqb c LF
  end.
Proof.
  destruct s as [|c s]; [done|]. unfold newline; cbn [String.prefix].
  destruct (ascii_dec LF c) as [<-|Hne].
  - rewrite Ascii.eqb_refl. by destruct s.
  - symmetry. apply Ascii.eqb_neq. congruence.
Qed.

Lemma indexOf_at_newline (s : string) (i : Z) :
  0 ≤ i → (indexOf_at i s newline =? -1) = negb (contains_newline s).
Proof.
  revert i; induction s as [|c s IH]; intros i Hi; cbn [indexOf_at].
  - by rewrite prefix_newline.
  - rewrite prefix_newline. simpl. destruct (Ascii.eqb c LF).
    + apply Z.eqb_neq; lia.
    + apply IH; lia.
Qed.

(** [text.indexOf("\n") === -1] is the test "no newline in [text]". *)
Lemma indexOf_newline (s : string) :
  (indexOf s newline =? -1) = negb (contains_newline s).
Proof. by apply indexOf_at_newline. Qed.

Lemma lastIndexOf_at_newline (s : string) (i : Z) :
  0 ≤ i →
  if contains_newline s
  then ∃ p : nat, lastIndexOf_at i s newline = i + Z.of_nat p
                  ∧ (p < String.length s)%nat
                  ∧ drop (S p) s = after_last_newline s
  else lastIndexOf_at i s newline = -1.
Proof.
  revert i; induction s as [|c s IH]; intros i Hi; cbn [lastIndexOf_at].
  - by rewrite prefix_newline.
  - rewrite prefix_newline. specialize (IH (i + 1) ltac:(lia)).
    cbn [contains_newline after_last_newline].
    destruct (contains_newline s).
    + destruct IH as (p & -> & Hp & Hd).
      replace (Ascii.eqb c LF || true)%bool with true by (by destruct (Ascii.eqb _ _)).
      destruct (Z.eqb_spec (i + 1 + Z.of_nat p) (-1)); [lia|].
      destruct (Ascii.eqb c LF); exists (S p); simpl; (split; [lia | split; [lia | done]]).
    + rewrite IH. simpl. destruct (Ascii.eqb c LF); [|done].
      exists 0%nat. simpl. split; [lia | split; [lia | done]].
Qed.

Lemma after_last_newline_none (s : string) :
  contains_newline s = false → after_last_newline s = s.
Proof.
  destruct s as [|c s]; [done|]. simpl.
  destruct (Ascii.eqb c LF); [done|]. by intros ->.
Qed.

(** [text.slice(text.lastIndexOf("\n") + 1)] is the text after the last
    newline. *)
Lemma slice_lastIndexOf (s : string) :
  slice s (lastIndexOf s newline + 1) = after_last_newline s.
Proof.
  unfold lastIndexOf, slice.
  pose proof (lastIndexOf_at_newline s 0 ltac:(lia)) as H.
  destruct (contains_newline s) eqn:Hc.
  - destruct H as (p & -> & Hp & Hd).
    destruct (Z.ltb_spec (0 + Z.of_nat p + 1) 0); [lia|].
    rewrite Z.min_l by lia.
    replace (Z.to_nat (0 + Z.of_nat p + 1)) with (S p) by lia. done.
  - rewrite H. change (-1 + 1 <? 0) with false. cbv iota.
    rewrite Z.min_l by lia. by rewrite after_last_newline_none.
Qed.

(** The regexp matches exactly when some character is not whitespace, and
    then captures the leading whitespace run. *)
Lemma exec_ws_nonws_spec (s : string) :
  exec_ws_nonws s = if has_nonspace s then Some (whitespace_run s) else None.
Proof.
  induction s as [|c s IH]; [done|]. simpl.
  destruct (is_space c); simpl; [|done]. rewrite IH.
  by destruct (has_nonspace s).
Qed.

End TextFacts.

(* ===================================================================== *)
(** ** The whitespace checks *)
(* ===================================================================== *)

(** The state after [ws] more warnings were reported. *)
Definition addWarnings (s : state) (ws : list warning) : state :=
  mkState (hierarchyMap s) (result s ++ ws) (sets s).

Lemma addWarnings_nil s : addWarnings s [] = s.
Proof. destruct s; unfold addWarnings; simpl. by rewrite app_nil_r. Qed.

Lemma addWarnings_app s ws1 ws2 :
  addWarnings (addWarnings s ws1) ws2 = addWarnings s (ws1 ++ ws2).
Proof. unfold addWarnings; simpl. by rewrite app_assoc. Qed.

(** The warning for a mismatch against [lvl] levels at [line]. *)
Definition violation (cfg : config) (n : node) (lvl line : Z) : warning :=
  mkWarning (MessageForm.text cfg lvl line) (oid n) line.

Lemma report_run cfg n lvl line s :
  report (messages_expected (legibleExpectation cfg lvl line)) n line s
  = (Normal tt, addWarnings s [violation cfg n lvl line]).
Proof. unfold report, addWarnings, violation. by rewrite expected_message_form. Qed.

(** The violations of a multi-line text: one for each newline, numbered
    from [k], whose following whitespace run is not the expected one. *)
Fixpoint newline_violations (cfg : config) (n : node) (lvl k : Z)
    (tails : list string) : list warning :=
  match tails with
  | [] => []
  | t :: tails' =>
      (if String.eqb (Text.whitespace_run t) (JS.repeat (indentChar cfg) lvl)
       then [] else [violation cfg n lvl (start_line n + k)])
      ++ newline_violations cfg n lvl (k + 1) tails'
  end.

Module CheckFacts.
Import JS Text TextFacts.

Lemma drop_next (k : nat) (v : string) c s' :
  drop k v = String c s' → drop (S k) v = s'.
Proof.
  revert v; induction k as [|k IH]; intros v; simpl.
  - by intros ->.
  - destruct v as [|c' v]; [done|]. intros H. by apply IH in H.
Qed.

Lemma drop_length (k : nat) (v : string) :
  (String.length (drop k v) ≤ String.length v)%nat.
Proof.
  revert v; induction k as [|k IH]; intros v; simpl; [lia|].
  destruct v as [|c v]; simpl; [lia|]. specialize (IH v). lia.
Qed.

Lemma drop_some_lt (k : nat) (v : string) c s' :
  drop k v = String c s' → (k < String.length v)%nat.
Proof.
  revert v; induction k as [|k IH]; intros v; simpl.
  - intros ->; simpl; lia.
  - destruct v as [|c' v]; [done|]. intros H%IH. simpl; lia.
Qed.

Lemma slice_after (v : string) (i : Z) c s' :
  0 ≤ i → drop (Z.to_nat i) v = String c s' → slice v (i + 1) = s'.
Proof.
  intros Hi Hd. unfold slice.
  pose proof (drop_some_lt _ _ _ _ Hd).
  destruct (Z.ltb_spec (i + 1) 0); [lia|].
  rewrite Z.min_l by lia.
  replace (Z.to_nat (i + 1)) with (S (Z.to_nat i)) by lia.
  by apply drop_next in Hd.
Qed.

Lemma checkNewline_run cfg n v lvl i k s :
  checkNewline cfg n v lvl (i, k) s =
  let tail := slice v (i + 1) in
  if has_nonspace tail
  then (Normal tt,
        addWarnings s
          (if String.eqb (whitespace_run tail) (repeat (indentChar cfg) lvl)
           then [] else [violation cfg n lvl (start_line n + k)]))
  else (Throw, s).
Proof.
  unfold checkNewline. cbn zeta. rewrite exec_ws_nonws_spec.
  destruct (has_nonspace _); [|done]. unfold when.
  destruct (String.eqb _ _); cbn [negb].
  - by rewrite addWarnings_nil.
  - apply report_run.
Qed.

(** The loop over the newlines of [v], started at offset [i]. *)
Lemma forEach_newlines cfg n v lvl : ∀ source i k s,
  0 ≤ i → drop (Z.to_nat i) v = source →
  let out := forEach (checkNewline cfg n v lvl)
               (Utils.styleSearch_at i k source newline) s in
  out.1 = (if forallb has_nonspace (after_newlines source)
           then Normal tt else Throw)
  ∧ (forallb has_nonspace (after_newlines source) = true →
     out.2 = addWarnings s (newline_violations cfg n lvl k (after_newlines source))).
Proof.
  induction source as [|c source IH]; intros i k s Hi Hd; cbn zeta.
  - simpl. split; [done|]. intros _. by rewrite addWarnings_nil.
  - cbn [Utils.styleSearch_at after_newlines]. rewrite prefix_newline.
    assert (Hd' : drop (Z.to_nat (i + 1)) v = source).
    { replace (Z.to_nat (i + 1)) with (S (Z.to_nat i)) by lia.
      by apply drop_next in Hd. }
    destruct (Ascii.eqb c LF); [|by apply IH; [lia|]].
    cbn [forEach forallb newline_violations]. rewrite bind_run.
    rewrite checkNewline_run. cbn zeta.
    rewrite (slice_after v i c source Hi Hd).
    destruct (has_nonspace source) eqn:Hns; [|by split].
    cbn [andb].
    destruct (IH (i + 1) (k + 1)
                (addWarnings s
                   (if String.eqb (whitespace_run source) (repeat (indentChar cfg) lvl)
                    then [] else [violation cfg n lvl (start_line n + k)]))
                ltac:(lia) Hd') as [IH1 IH2].
    split; [exact IH1|]. intros Hall. rewrite (IH2 Hall).
    by rewrite addWarnings_app.
Qed.

Lemma checkLines_run cfg n v lvl s :
  let out := forEach (checkNewline cfg n v lvl) (Utils.styleSearch v newline) s in
  out.1 = (if forallb has_nonspace (after_newlines v) then Normal tt else Throw)
  ∧ (forallb has_nonspace (after_newlines v) = true →
     out.2 = addWarnings s (newline_violations cfg n lvl 1 (after_newlines v))).
Proof. by apply forEach_newlines. Qed.

Lemma after_newlines_none (v : string) :
  contains_newline v = false → after_newlines v = [].
Proof.
  induction v as [|c v IH]; [done|]. simpl.
  destruct (Ascii.eqb c LF); [done | exact IH].
Qed.

End CheckFacts.

(** The level against which the continuation lines of a value are checked. *)
Definition valueLevelOf (cfg : config) (declLevel : Z) : Z :=
  if bool_decide ("value"%string ∈ match options cfg with
                                    | Some o => except o
                                    | None => []
                                    end)
  then declLevel else declLevel + 1.

Lemma optionsHaveException_elem (o : option options_t) (name : string) :
  Utils.optionsHaveException o name
  = bool_decide (name ∈ match o with Some o => except o | None => [] end).
Proof.
  destruct o as [o|]; simpl; [|done].
  induction (except o) as [|x l IH]; simpl; [done|].
  rewrite IH. destruct (String.eqb_spec name x) as [->|Hne]; simpl.
  - symmetry. apply bool_decide_eq_true. by left.
  - apply bool_decide_ext. rewrite elem_of_cons. tauto.
Qed.

Lemma checkValue_run cfg n v declLevel s :
  let out := checkValue cfg n v declLevel s in
  out.1 = (if forallb Text.has_nonspace (Text.after_newlines v)
           then Normal tt else Throw)
  ∧ (forallb Text.has_nonspace (Text.after_newlines v) = true →
     out.2 = addWarnings s (newline_violations cfg n (valueLevelOf cfg declLevel) 1
                              (Text.after_newlines v))).
Proof.
  unfold checkValue. rewrite TextFacts.indexOf_newline.
  destruct (Text.contains_newline v) eqn:Hc; cbn [negb].
  - unfold valueLevelOf. rewrite <- optionsHaveException_elem.
    apply CheckFacts.checkLines_run.
  - rewrite (CheckFacts.after_newlines_none v Hc). simpl.
    split; [done|]. intros _. by rewrite addWarnings_nil.
Qed.

Lemma checkSelector_run cfg n sel ruleLevel s :
  let out := checkSelector cfg n sel ruleLevel s in
  out.1 = (if forallb Text.has_nonspace (Text.after_newlines sel)
           then Normal tt else Throw)
  ∧ (forallb Text.has_nonspace (Text.after_newlines sel) = true →
     out.2 = addWarnings s (newline_violations cfg n ruleLevel 1
                              (Text.after_newlines sel))).
Proof.
  unfold checkSelector. rewrite TextFacts.indexOf_newline.
  destruct (Text.contains_newline sel) eqn:Hc; cbn [negb].
  - apply CheckFacts.checkLines_run.
  - rewrite (CheckFacts.after_newlines_none sel Hc). simpl.
    split; [done|]. intros _. by rewrite addWarnings_nil.
Qed.

Lemma forallb_Forall_true {A} (f : A → bool) (l : list A) :
  forallb f l = true ↔ Forall (λ x, f x = true) l.
Proof.
  induction l as [|x l IH]; simpl.
  - split; [constructor | done].
  - rewrite andb_true_iff, IH. split.
    + intros [? ?]; by constructor.
    + by inversion 1.
Qed.

Lemma forallb_Exists_false {A} (f : A → bool) (l : list A) :
  forallb f l = false ↔ Exists (λ x, f x = false) l.
Proof.
  induction l as [|x l IH]; simpl.
  - split; [done | by inversion 1].
  - rewrite andb_false_iff, IH. split.
    + intros [?|?]; [by left | by right].
    + inversion 1; subst; [by left | by right].
Qed.

(** The exceptions named in the options. *)
Definition exceptions (cfg : config) : list string :=
  match options cfg with
  | Some o => except o
  | None => []
  end.

(** C4: for a declaration's value, no newline means nothing is emitted;
    otherwise the expected level is the declaration's level with the "value"
    exception and that level plus one without it, the whitespace run after
    the k-th newline (k from 1) is compared with the indent unit repeated
    that many times, and each mismatch gives exactly one violation, at the
    declaration's start line plus k.  (Every newline is taken to be followed
    by some non-whitespace character; see C9.) *)
Theorem C4_value_check (cfg : config) (n : node) (v : string)
    (declLevel : Z) (s : state) :
  let expectedLevel :=
    if bool_decide ("value"%string ∈ exceptions cfg)
    then declLevel else declLevel + 1 in
  (Text.contains_newline v = false →
     checkValue cfg n v declLevel s = (Normal tt, s))
  ∧ (Forall (λ t, Text.has_nonspace t = true) (Text.after_newlines v) →
     checkValue cfg n v declLevel s =
     (Normal tt,
      addWarnings s
        (newline_violations cfg n expectedLevel 1 (Text.after_newlines v)))).
Proof.
  cbn zeta. pose proof (checkValue_run cfg n v declLevel s) as [H1 H2].
  cbn zeta in *. split.
  - intros Hc. rewrite (CheckFacts.after_newlines_none v Hc) in *.
    simpl in *. specialize (H2 eq_refl). rewrite addWarnings_nil in H2.
    destruct (checkValue cfg n v declLevel s); simpl in *; congruence.
  - intros Hall%forallb_Forall_true. rewrite Hall in H1. specialize (H2 Hall).
    unfold valueLevelOf, exceptions in *.
    destruct (checkValue cfg n v declLevel s); simpl in *; congruence.
Qed.

(** C9: the multi-line value and selector checks complete exactly when
    every newline of the text is followed, somewhere, by a non-whitespace
    character; when some newline is followed by whitespace only up to the
    end of the text, the regexp gives no match there and the check ends
    with an error. *)
Theorem C9_newline_checks_partial (cfg : config) (n : node) (text : string)
    (lvl : Z) (s : state) :
  (Forall (λ t, Text.has_nonspace t = true) (Text.after_newlines text) →
     (checkValue cfg n text lvl s).1 = Normal tt
     ∧ (checkSelector cfg n text lvl s).1 = Normal tt)
  ∧ (Exists (λ t, Text.has_nonspace t = false) (Text.after_newlines text) →
     Exists (λ t, JS.exec_ws_nonws t = None) (Text.after_newlines text)
     ∧ (checkValue cfg n text lvl s).1 = Throw
     ∧ (checkSelector cfg n text lvl s).1 = Throw).
Proof.
  pose proof (checkValue_run cfg n text lvl s) as [Hv _].
  pose proof (checkSelector_run cfg n text lvl s) as [Hs _].
  cbn zeta in *. split.
  - intros Hall%forallb_Forall_true. by rewrite Hall in Hv, Hs.
  - intros Hex. split.
    + eapply Exists_impl; [exact Hex|]. intros t Ht; simpl in Ht.
      by rewrite TextFacts.exec_ws_nonws_spec, Ht.
    + apply forallb_Exists_false in Hex. by rewrite Hex in Hv, Hs.
Qed.

(** C5: the leading-whitespace check of a node runs exactly when the node
    is the first node under the root or its [before] text contains a
    newline; it compares everything after the last newline of [before] (all
    of [before] without a newline) with the indent unit repeated level
    times, and emits one violation, at the node's start line, exactly when
    the two differ.  The callback runs this check, at the node's level, on
    every rule, at-rule and declaration. *)
Theorem C5_leading_whitespace (cfg : config) (fuel : nat) (r : root)
    (ancestors : list node) (prev : option node) (n : node) (lvl : Z)
    (s : state) :
  let expected := JS.repeat (indentChar cfg) lvl in
  let runs := (∃ f, first r = Some f ∧ oid f = oid n)
              ∨ Text.contains_newline (before n) = true in
  let compared := Text.after_last_newline (before n) in
  (runs ∧ compared ≠ expected →
     checkBefore cfg r n lvl expected s =
     (Normal tt, addWarnings s [violation cfg n lvl (start_line n)]))
  ∧ (¬ (runs ∧ compared ≠ expected) →
     checkBefore cfg r n lvl expected s = (Normal tt, s))
  ∧ (type n ≠ comment →
     ∃ rest : Z → M unit,
       callback cfg fuel r ancestors prev n =
       (nodeLevel ← nodeLevelOf cfg fuel ancestors prev n;
        checkBefore cfg r n nodeLevel (JS.repeat (indentChar cfg) nodeLevel);;
        rest nodeLevel)).
Proof.
  cbn zeta.
  assert (Hruns : isFirst r n || negb (JS.indexOf (before n) JS.newline =? -1) = true
                  ↔ (∃ f, first r = Some f ∧ oid f = oid n)
                    ∨ Text.contains_newline (before n) = true).
  { rewrite TextFacts.indexOf_newline, negb_involutive, orb_true_iff.
    unfold isFirst. destruct (first r) as [f|].
    - rewrite Pos.eqb_eq. split; intros [H|H]; [left; eauto | by right | | by right].
      destruct H as (f0 & [= <-] & H). by left.
    - split; intros [H|H]; [done | by right | | by right].
      by destruct H as (f0 & ? & _). }
  assert (Hrun : checkBefore cfg r n lvl (JS.repeat (indentChar cfg) lvl) s =
    if (isFirst r n || negb (JS.indexOf (before n) JS.newline =? -1))
       && negb (String.eqb (Text.after_last_newline (before n))
                  (JS.repeat (indentChar cfg) lvl))
    then (Normal tt, addWarnings s [violation cfg n lvl (start_line n)])
    else (Normal tt, s)).
  { unfold checkBefore. cbn zeta. rewrite TextFacts.slice_lastIndexOf.
    destruct (_ && _); simpl; [apply report_run | done]. }
  split; [|split].
  - intros [Hr Hne]. rewrite Hrun. apply Hruns in Hr. rewrite Hr.
    apply String.eqb_neq in Hne. by rewrite Hne.
  - intros Hnot. rewrite Hrun.
    destruct (isFirst r n || negb (JS.indexOf (before n) JS.newline =? -1)) eqn:Hr;
      [|done].
    destruct (String.eqb_spec (Text.after_last_newline (before n))
                (JS.repeat (indentChar cfg) lvl)) as [Heq|Hne]; [done|].
    exfalso. apply Hnot. split; [by apply Hruns | done].
  - intros Hty. eexists (λ nodeLevel, _). unfold callback.
    destruct (type n); simpl; [reflexivity..|done].
Qed.

(* ===================================================================== *)
(** ** The level of a node and its entry in the hierarchy map *)
(* ===================================================================== *)

(** The state after [hierarchyMap.set(n, e)]. *)
Definition setEntry (n : node) (e : entry) (s : state) : state :=
  mkState (<[oid n := e]> (hierarchyMap s)) (result s) (sets s ++ [(oid n, e)]).

Lemma addNodeToHierarchy_run n sup lvl s :
  addNodeToHierarchy n sup lvl s = (Normal tt, setEntry n (mkEntry sup lvl) s).
Proof. reflexivity. Qed.

(** [indentationLevel] looks at the node itself only to tell a declaration
    from a block. *)
Lemma indentationLevel_same_kind cfg hm n n' ancestors lvl :
  node_type_eqb (type n) decl = node_type_eqb (type n') decl →
  indentationLevel cfg hm n ancestors lvl = indentationLevel cfg hm n' ancestors lvl.
Proof. destruct ancestors as [|p anc]; simpl; [done|]. by intros ->. Qed.

Lemma isRule_not_decl n : isRule n = true → node_type_eqb (type n) decl = false.
Proof. unfold isRule. by destruct (type n). Qed.

(** The rule [n] directly follows the rule [p] whose selector starts its own. *)
Lemma nodeLevelOf_subordinate cfg fuel ancestors p n sel s :
  hierarchical cfg = true → isRule n = true → isRule p = true →
  selector n = Some sel →
  String.prefix (JS.argString (selector p)) sel = true →
  let lvl := match hierarchyMap s !! oid p with
             | Some e => level e + 1
             | None => indentationLevel cfg (hierarchyMap s) n ancestors 0 + 1
             end in
  nodeLevelOf cfg fuel ancestors (Some p) n s
  = (Normal lvl, setEntry n (mkEntry (Inner p) lvl) s).
Proof.
  intros Hh Hn Hp Hsel Hpre. unfold nodeLevelOf. rewrite bind_run. simpl.
  rewrite Hh. unfold hierarchicalSelectorsLevel. rewrite Hn, Hp, Hsel. simpl.
  rewrite bind_run. simpl. by rewrite JSFacts.indexOf_zero, Hpre.
Qed.


(** What a call of [nodeLevelOf] can do to the state. *)
Lemma nodeLevelOf_cases cfg fuel ancestors prev n s :
  let naive := indentationLevel cfg (hierarchyMap s) n ancestors 0 in
  (∃ c, nodeLevelOf cfg fuel ancestors prev n s = (c, s)
        ∧ hierarchical cfg = true
        ∧ (c = Normal naive ∨ c = Throw ∨ c = Diverge))
  ∨ (∃ e, nodeLevelOf cfg fuel ancestors prev n s = (Normal (level e), setEntry n e s)).
Proof.
  cbn zeta. unfold nodeLevelOf. rewrite bind_run. simpl.
  destruct (hierarchical cfg) eqn:Hh.
  - unfold hierarchicalSelectorsLevel.
    destruct prev as [p|]; [|left; eexists; eauto].
    destruct (_ || _); [left; eexists; eauto|].
    destruct (selector n) as [sel|]; [|left; eexists; eauto].
    rewrite bind_run; simpl. destruct (_ =? 0).
    + right. by eexists (mkEntry _ _).
    + destruct (peerSearch _ _ _ _) as [[e|]| |].
      * right. by eexists (mkEntry _ _).
      * left; eexists; eauto.
      * left; eexists; eauto.
      * left; eexists; eauto.
  - right. by eexists (mkEntry _ _).
Qed.

(** C7: the subordinate test is a plain "starts with" on the selector
    texts, with no token boundary: a rule whose selector merely continues
    the selector of the rule before it (as [.foobar] continues [.foo]) is
    recorded as that rule's subordinate and gets that rule's level plus
    one. *)
Theorem C7_prefix_without_boundary (cfg : config) (fuel : nat)
    (ancestors : list node) (prev1 : option node) (n1 n2 : node)
    (sel1 rest : string) (s s1 : state) (L1 : Z) :
  hierarchical cfg = true →
  isRule n1 = true → isRule n2 = true →
  selector n1 = Some sel1 → selector n2 = Some (sel1 +:+ rest) →
  hierarchyMap s !! oid n1 = None →
  nodeLevelOf cfg fuel ancestors prev1 n1 s = (Normal L1, s1) →
  nodeLevelOf cfg fuel ancestors (Some n1) n2 s1
  = (Normal (L1 + 1), setEntry n2 (mkEntry (Inner n1) (L1 + 1)) s1).
Proof.
  intros Hh Hr1 Hr2 Hs1 Hs2 Hfresh Hfirst.
  rewrite (nodeLevelOf_subordinate cfg fuel ancestors n1 n2 (sel1 +:+ rest) s1 Hh Hr2 Hr1 Hs2);
    [|rewrite Hs1; apply JSFacts.prefix_app].
  cbn zeta.
  destruct (nodeLevelOf_cases cfg fuel ancestors prev1 n1 s)
    as [(c & Hc & _ & Hcase)|(e & He)].
  - rewrite Hc in Hfirst. injection Hfirst as -> <-. rewrite Hfresh.
    destruct Hcase as [[= ->]|[?|?]]; [|done..].
    rewrite (indentationLevel_same_kind cfg _ n2 n1); [done|].
    by rewrite !isRule_not_decl.
  - rewrite He in Hfirst. injection Hfirst as <- <-. simpl.
    by rewrite lookup_insert_eq.
Qed.




(* ===================================================================== *)
(** ** The callback, seen from outside *)
(* ===================================================================== *)

(** A computation that only reports: its completion and its warnings do
    not depend on the state, it leaves the map alone, and it ends. *)
Definition reporter {A} (m : M A) : Prop :=
  ∃ c ws, c ≠ Diverge ∧ ∀ s, m s = (c, addWarnings s ws).

Lemma reporter_ret {A} (a : A) : reporter (mret a).
Proof. exists (Normal a), []. split; [done|]. intros s. by rewrite addWarnings_nil. Qed.

Lemma reporter_throw {A} : reporter (@throw A).
Proof. exists Throw, []. split; [done|]. intros s. by rewrite addWarnings_nil. Qed.

Lemma reporter_report msg n line : reporter (report msg n line).
Proof. by exists (Normal tt), [mkWarning msg (oid n) line]. Qed.

Lemma reporter_bind {A B} (m : M A) (f : A → M B) :
  reporter m → (∀ a, reporter (f a)) → reporter (m ≫= f).
Proof.
  intros (c & ws & Hc & Hm) Hf. destruct c as [a| |]; [| |done].
  - destruct (Hf a) as (c' & ws' & Hc' & Hfa). exists c', (ws ++ ws').
    split; [done|]. intros s. by rewrite bind_run, Hm, Hfa, addWarnings_app.
  - exists Throw, ws. split; [done|]. intros s. by rewrite bind_run, Hm.
Qed.

Lemma reporter_when b (m : M unit) : reporter m → reporter (when b m).
Proof. destruct b; [done | intros _; apply reporter_ret]. Qed.

Lemma reporter_forEach {A} (f : A → M unit) l :
  (∀ x, reporter (f x)) → reporter (forEach f l).
Proof.
  intros Hf. induction l as [|x l IH]; simpl.
  - apply reporter_ret.
  - apply reporter_bind; [apply Hf | intros _; exact IH].
Qed.

Lemma reporter_checkNewline cfg n text lvl m :
  reporter (checkNewline cfg n text lvl m).
Proof.
  unfold checkNewline. destruct m as [i k].
  destruct (JS.exec_ws_nonws _); [|apply reporter_throw].
  apply reporter_when, reporter_report.
Qed.

(** The checks the callback runs once the level is known. *)
Definition checksOf (cfg : config) (r : root) (n : node) (nodeLevel : Z) : M unit :=
  let expectedWhitespace := JS.repeat (indentChar cfg) nodeLevel in
  checkBefore cfg r n nodeLevel expectedWhitespace;;
  checkAfter cfg n nodeLevel expectedWhitespace;;
  match value n with
  | Some v => when (JS.truthy (Some v)) (checkValue cfg n v nodeLevel)
  | None => mret tt
  end;;
  match selector n with
  | Some sel => when (JS.truthy (Some sel)) (checkSelector cfg n sel nodeLevel)
  | None => mret tt
  end.

Lemma callback_eq cfg fuel r ancestors prev n :
  callback cfg fuel r ancestors prev n =
  if node_type_eqb (type n) comment then mret tt
  else nodeLevelOf cfg fuel ancestors prev n ≫= checksOf cfg r n.
Proof. reflexivity. Qed.

Lemma reporter_checksOf cfg r n lvl : reporter (checksOf cfg r n lvl).
Proof.
  unfold checksOf. cbn zeta.
  apply reporter_bind; [apply reporter_when, reporter_report|]. intros _.
  apply reporter_bind; [apply reporter_when, reporter_report|]. intros _.
  apply reporter_bind.
  { destruct (value n); [|apply reporter_ret]. apply reporter_when.
    unfold checkValue. destruct (_ =? -1); [apply reporter_ret|].
    apply reporter_forEach; intros m; apply reporter_checkNewline. }
  intros _. destruct (selector n); [|apply reporter_ret]. apply reporter_when.
  unfold checkSelector. destruct (_ =? -1); [apply reporter_ret|].
  apply reporter_forEach; intros m; apply reporter_checkNewline.
Qed.

(** What the callback does to the state: at most one [hierarchyMap.set],
    for the node itself, and some warnings. *)
Inductive callback_effect (n : node) (s : state) : completion unit * state → Prop :=
| effect_none c ws :
    callback_effect n s (c, addWarnings s ws)
| effect_set c ws e :
    callback_effect n s (c, addWarnings (setEntry n e s) ws).

Lemma nodeLevelOf_effect cfg fuel ancestors prev n s :
  (∃ c, nodeLevelOf cfg fuel ancestors prev n s = (c, s))
  ∨ (∃ e, nodeLevelOf cfg fuel ancestors prev n s = (Normal (level e), setEntry n e s)).
Proof.
  destruct (nodeLevelOf_cases cfg fuel ancestors prev n s) as [(c & H & _)|H];
    [left; by exists c | by right].
Qed.

Lemma callback_has_effect cfg fuel r ancestors prev n s :
  callback_effect n s (callback cfg fuel r ancestors prev n s).
Proof.
  rewrite callback_eq. destruct (node_type_eqb _ _).
  - rewrite <- (addWarnings_nil s) at 2. apply (effect_none n s (Normal tt) []).
  - rewrite bind_run.
    destruct (nodeLevelOf_effect cfg fuel ancestors prev n s) as [(c & ->)|(e & ->)].
    + destruct c as [lvl| |].
      * destruct (reporter_checksOf cfg r n lvl) as (c' & ws & _ & ->). constructor.
      * rewrite <- (addWarnings_nil s) at 2. constructor.
      * rewrite <- (addWarnings_nil s) at 2. constructor.
    + destruct (reporter_checksOf cfg r n (level e)) as (c' & ws & _ & ->). constructor.
Qed.

(* ===================================================================== *)
(** ** The traversal *)
(* ===================================================================== *)

(** The nodes the traversal visits, in the order of the visits. *)
Fixpoint preorder_node (n : node) : list node :=
  n :: match n with
       | mkNode _ ty _ _ _ _ _ _ children =>
           match ty with
           | rule | atrule =>
               (fix go (l : list node) : list node :=
                  match l with
                  | [] => []
                  | c :: l' => preorder_node c ++ go l'
                  end) children
           | decl | comment => []
           end
       end.

Fixpoint preorder (l : list node) : list node :=
  match l with
  | [] => []
  | c :: l' => preorder_node c ++ preorder l'
  end.

(** The objects of a tree are pairwise distinct. *)
Definition distinct_nodes (r : root) : Prop :=
  NoDup (oid <$> preorder (root_nodes r)).

Lemma preorder_node_unfold n :
  preorder_node n = n :: (if isContainer n then preorder (nodes n) else []).
Proof.
  destruct n as [i ty b a sel v l1 l2 ch]. unfold isContainer; simpl.
  f_equal. destruct ty; try done; induction ch as [|c ch IH]; simpl; congruence.
Qed.

(** The parent chain and the previous sibling were visited before. *)
Definition in_context (pre ancestors : list node) (prev : option node) : Prop :=
  Forall (λ a, a ∈ pre) ancestors ∧ (∀ p, prev = Some p → p ∈ pre).

Lemma in_context_app pre x ancestors prev :
  in_context pre ancestors prev → in_context (pre ++ x) ancestors prev.
Proof.
  intros [Ha Hp]. split.
  - eapply Forall_impl; [exact Ha|]. intros a Hin. apply elem_of_app; by left.
  - intros p Hp'. apply elem_of_app; left; by apply Hp.
Qed.

(** A proof rule for the traversal: [I pre] holds of the state once the
    nodes [pre] have been visited, [A] of an abrupt end. *)
Section TraversalRule.
Variables (cfg : config) (fuel : nat) (r : root) (order : list node).
Variable I : list node → state → Prop.
Variable A : completion unit → state → Prop.

Definition outcome_ok (pre : list node) (x : completion unit * state) : Prop :=
match x with
| (Normal _, s') => I pre s'
| (c, s') => A c s'
end.

Hypothesis step : ∀ pre post ancestors prev n s,
order = pre ++ n :: post → in_context pre ancestors prev → I pre s →
outcome_ok (pre ++ [n]) (callback cfg fuel r ancestors prev n s).

Definition walk_ok (n : node) : Prop :=
∀ pre post ancestors prev s,
  order = pre ++ preorder_node n ++ post → in_context pre ancestors prev →
  I pre s → outcome_ok (pre ++ preorder_node n) (walk cfg fuel r ancestors prev n s).

Lemma rule_each_of_walk l :
Forall walk_ok l →
∀ pre post ancestors prev s,
  order = pre ++ preorder l ++ post → in_context pre ancestors prev →
  I pre s → outcome_ok (pre ++ preorder l) (eachInside cfg fuel r ancestors prev l s).
Proof.
induction 1 as [|c l Hc _ IH]; intros pre post ancestors prev s Ho Hctx HI.
- simpl. by rewrite app_nil_r.
- cbn [eachInside preorder]. rewrite bind_run.
  cbn [preorder] in Ho. rewrite <- app_assoc in Ho.
  specialize (Hc pre (preorder l ++ post) ancestors prev s Ho Hctx HI).
  destruct (walk cfg fuel r ancestors prev c s) as [[[]| |] s1]; [|done..].
  rewrite app_assoc. apply (IH _ post).
  + by rewrite <- app_assoc.
  + destruct Hctx as [Ha _]. split.
    * eapply Forall_impl; [exact Ha|]. intros a Hin. apply elem_of_app; by left.
    * intros p [= <-]. apply elem_of_app; right.
      rewrite preorder_node_unfold. by left.
  + exact Hc.
Qed.

Lemma rule_walk n : walk_ok n.
Proof.
induction n as [i ty b a sel v l1 l2 ch IH] using node_forall_ind.
intros pre post ancestors prev s Ho Hctx HI.
set (n := mkNode i ty b a sel v l1 l2 ch) in *.
rewrite walk_unfold, bind_run. rewrite preorder_node_unfold in Ho |- *.
cbn [app] in Ho.
pose proof (step pre _ ancestors prev n s Ho Hctx HI) as Hs.
destruct (callback cfg fuel r ancestors prev n s) as [[[]| |] s1]; [|done..].
destruct (isContainer n).
- replace (pre ++ n :: preorder (nodes n)) with ((pre ++ [n]) ++ preorder (nodes n))
    by (by rewrite <- app_assoc).
  apply (rule_each_of_walk (nodes n) IH _ post).
  + by rewrite <- !app_assoc.
  + destruct Hctx as [Ha _]. split; [|done]. constructor.
    * apply elem_of_app; right; by left.
    * eapply Forall_impl; [exact Ha|]. intros x Hin. apply elem_of_app; by left.
  + exact Hs.
- exact Hs.
Qed.

Lemma rule_eachInside l pre post ancestors prev s :
order = pre ++ preorder l ++ post → in_context pre ancestors prev → I pre s →
outcome_ok (pre ++ preorder l) (eachInside cfg fuel r ancestors prev l s).
Proof.
apply rule_each_of_walk, Forall_forall. intros c _. apply rule_walk.
Qed.

End TraversalRule.

(** The map after the calls of [hierarchyMap.set] logged in [lg]. *)
Definition replay (lg : list (positive * entry)) (hm : hmap) : hmap :=
  foldl (λ m ke, <[ke.1 := ke.2]> m) hm lg.

Lemma replay_snoc lg k e hm :
  replay (lg ++ [(k, e)]) hm = <[k := e]> (replay lg hm).
Proof. unfold replay. by rewrite foldl_app. Qed.

Lemma replay_lookup_notin lg hm k :
  k ∉ lg.*1 → replay lg hm !! k = hm !! k.
Proof.
  induction lg as [|[k' e] lg IH] using rev_ind; [done|].
  rewrite fmap_app, replay_snoc. simpl. intros Hnot.
  rewrite not_elem_of_app, list_elem_of_singleton in Hnot. destruct Hnot as [H1 H2].
  rewrite lookup_insert_ne by done. by apply IH.
Qed.

(** The calls of [hierarchyMap.set] made while the children [l] and all
    below them are traversed: they explain the map afterwards, and their
    keys follow the order of the visits. *)
Lemma traversal_log cfg fuel r l ancestors prev s :
  let s' := (eachInside cfg fuel r ancestors prev l s).2 in
  ∃ lg, sets s' = sets s ++ lg
        ∧ hierarchyMap s' = replay lg (hierarchyMap s)
        ∧ lg.*1 `sublist_of` (oid <$> preorder l).
Proof.
  cbn zeta.
  set (pre0 := ancestors ++ match prev with Some p => [p] | None => [] end).
  set (Inv := λ (pre : list node) (s1 : state),
    ∃ pre1 lg, pre = pre0 ++ pre1 ∧ sets s1 = sets s ++ lg
               ∧ hierarchyMap s1 = replay lg (hierarchyMap s)
               ∧ lg.*1 `sublist_of` (oid <$> pre1)).
  set (Ab := λ (_ : completion unit) (s1 : state),
    ∃ lg, sets s1 = sets s ++ lg
          ∧ hierarchyMap s1 = replay lg (hierarchyMap s)
          ∧ lg.*1 `sublist_of` (oid <$> preorder l)).
  assert (Hrule : outcome_ok Inv Ab (pre0 ++ preorder l)
                    (eachInside cfg fuel r ancestors prev l s)).
  { apply (rule_eachInside cfg fuel r (pre0 ++ preorder l) Inv Ab) with (post := []).
    - intros pre post anc pv n s1 Ho _ (pre1 & lg & -> & Hsets & Hmap & Hsub).
      rewrite <- app_assoc in Ho. apply app_inv_head in Ho.
      assert (Hpre : (oid <$> (pre1 ++ [n])) `sublist_of` (oid <$> preorder l)).
      { rewrite Ho. rewrite !fmap_app. apply sublist_app; [done|].
        simpl. apply (sublist_inserts_r (oid <$> post) [oid n] [oid n]). done. }
      destruct (callback_has_effect cfg fuel r anc pv n s1) as [c ws|c ws e].
      + assert (Hab : Ab c (addWarnings s1 ws)).
        { exists lg. split; [done|]. split; [done|].
          etrans; [|exact Hpre]. rewrite fmap_app. by apply sublist_inserts_r. }
        destruct c as [[]| |]; try exact Hab.
        exists (pre1 ++ [n]), lg. rewrite app_assoc. split; [done|].
        split; [done|]. split; [done|]. rewrite fmap_app. by apply sublist_inserts_r.
      + assert (Hlg : ((lg ++ [(oid n, e)]).*1) `sublist_of` (oid <$> (pre1 ++ [n]))).
        { rewrite !fmap_app. by apply sublist_app. }
        assert (Hab : Ab c (addWarnings (setEntry n e s1) ws)).
        { exists (lg ++ [(oid n, e)]). simpl. rewrite Hsets, Hmap, replay_snoc, app_assoc.
          split; [done|]. split; [done|]. by etrans. }
        destruct c as [[]| |]; try exact Hab.
        exists (pre1 ++ [n]), (lg ++ [(oid n, e)]). simpl.
        rewrite Hsets, Hmap, replay_snoc, !app_assoc. done.
    - by rewrite app_nil_r.
    - split.
      + apply Forall_forall. intros a Ha. unfold pre0. apply elem_of_app; by left.
      + intros p ->. unfold pre0. apply elem_of_app; right. by left.
    - exists [], []. rewrite !app_nil_r. done. }
  destruct (eachInside cfg fuel r ancestors prev l s) as [[[]| |] s1]; simpl in *.
  - destruct Hrule as (pre1 & lg & Hp & H1 & H2 & H3).
    apply app_inv_head in Hp. subst pre1. by exists lg.
  - exact Hrule.
  - exact Hrule.
Qed.

(** Only the nodes visited can get or lose an entry. *)
Lemma frame_each cfg fuel r l ancestors prev s k :
  k ∉ oid <$> preorder l →
  hierarchyMap (eachInside cfg fuel r ancestors prev l s).2 !! k = hierarchyMap s !! k.
Proof.
  intros Hk. destruct (traversal_log cfg fuel r l ancestors prev s) as (lg & _ & -> & Hsub).
  apply replay_lookup_notin. intros Hin. apply Hk. by eapply elem_of_sublist.
Qed.

Lemma frame_walk cfg fuel r n ancestors prev s k :
  k ∉ oid <$> preorder_node n →
  hierarchyMap (walk cfg fuel r ancestors prev n s).2 !! k = hierarchyMap s !! k.
Proof.
  intros Hk. rewrite <- (frame_each cfg fuel r [n] ancestors prev s k).
  - cbn [eachInside]. rewrite bind_run.
    by destruct (walk cfg fuel r ancestors prev n s) as [[[]| |] s1].
  - simpl. by rewrite app_nil_r.
Qed.

(** The calls of [hierarchyMap.set] of one invocation. *)
Lemma invocation_sets cfg fuel r hm :
  distinct_nodes r →
  let s' := (invoke cfg fuel r hm).2 in
  NoDup (sets s').*1
  ∧ hierarchyMap s' = replay (sets s') hm
  ∧ (sets s').*1 `sublist_of` (oid <$> preorder (root_nodes r)).
Proof.
  intros Hnd. cbn zeta. unfold invoke, check.
  destruct (traversal_log cfg fuel r (root_nodes r) [] None (mkState hm [] []))
    as (lg & Hsets & Hmap & Hsub).
  simpl in Hsets, Hmap. rewrite Hsets, Hmap.
  split; [|done]. eapply sublist_NoDup; [exact Hnd | exact Hsub].
Qed.

(** C8: within one invocation the entry of a node is written at most once:
    the calls of [hierarchyMap.set] have pairwise distinct keys, so each
    call targets a node for which the same run has made no call before (and
    which, in a run that starts from an empty map, has no entry at all);
    the map the run leaves is its starting map with these calls applied. *)
Theorem C8_write_once (cfg : config) (fuel : nat) (r : root) (hm : hmap) :
  distinct_nodes r →
  let s' := (invoke cfg fuel r hm).2 in
  NoDup (sets s').*1
  ∧ hierarchyMap s' = replay (sets s') hm
  ∧ (∀ before_ k e after_,
       sets s' = before_ ++ (k, e) :: after_ →
       (k ∉ fst <$> before_) ∧ replay before_ hm !! k = hm !! k).
Proof.
  intros Hnd. cbn zeta. unfold invoke, check.
  destruct (traversal_log cfg fuel r (root_nodes r) [] None (mkState hm [] []))
    as (lg & Hsets & Hmap & Hsub).
  simpl in Hsets, Hmap. rewrite Hsets, Hmap.
  assert (Hk : NoDup lg.*1) by (eapply sublist_NoDup; [exact Hnd | exact Hsub]).
  split; [done|]. split; [done|].
  intros l1 k e l2 ->. rewrite fmap_app in Hk. simpl in Hk.
  apply NoDup_app in Hk as (_ & Hk & _).
  assert (Hnot : k ∉ l1.*1).
  { intros Hin. apply (Hk k Hin). by left. }
  split; [done|]. by apply replay_lookup_notin.
Qed.

(* ===================================================================== *)
(** ** Superordinates come earlier: the peer search ends *)
(* ===================================================================== *)

(** [c] is the root, or a node visited strictly before the node [k]. *)
Definition earlier (order : list positive) (c : container) (k : positive) : Prop :=
  match c with
  | Root => True
  | Inner p => ∃ i j : nat,
      order !! i = Some (oid p) ∧ order !! j = Some k ∧ (i < j)%nat
  end.

(** Every entry of a visited node names a superordinate visited earlier. *)
Definition ordered (order : list positive) (hm : hmap) : Prop :=
  ∀ k e, hm !! k = Some e → k ∈ order → earlier order (superordinate e) k.

Lemma ordered_insert order hm k e :
  ordered order hm → earlier order (superordinate e) k →
  ordered order (<[k := e]> hm).
Proof.
  intros Ho He k' e' Hl Hin. destruct (decide (k = k')) as [<-|Hne].
  - rewrite lookup_insert_eq in Hl. by injection Hl as <-.
  - rewrite lookup_insert_ne in Hl by done. by apply Ho.
Qed.

Section PeerSearch.
Variables (order : list positive) (hm : hmap) (sel : string).
Hypothesis Hnodup : NoDup order.
Hypothesis Hord : ordered order hm.

Lemma peerSearch_root fuel : peerSearch (S fuel) hm sel Root = Normal None.
Proof. reflexivity. Qed.

(** From a candidate at position [j] the loop ends within [j + 2] tests. *)
Lemma peerSearch_ends : ∀ (j fuel : nat) p,
  order !! j = Some (oid p) → (j + 2 ≤ fuel)%nat →
  peerSearch fuel hm sel (Inner p) ≠ Diverge.
Proof.
  induction j as [j IH] using lt_wf_ind. intros fuel p Hj Hfuel.
  destruct fuel as [|fuel]; [lia|]. cbn [peerSearch lookupC].
  destruct (hm !! oid p) as [e|] eqn:He; [|done].
  destruct (_ =? 0); [done|].
  pose proof (Hord _ _ He ltac:(by eapply list_elem_of_lookup_2)) as Hearlier.
  destruct (superordinate e) as [|p'].
  - destruct fuel as [|fuel]; [lia|]. by rewrite peerSearch_root.
  - destruct Hearlier as (i & j' & Hi & Hj' & Hlt).
    assert (j' = j) as -> by (eapply NoDup_lookup; eauto).
    apply (IH i Hlt); [done | lia].
Qed.

(** The entry found belongs to a node at or before the first candidate. *)
Lemma peerSearch_found : ∀ (fuel j : nat) p e0,
  order !! j = Some (oid p) →
  peerSearch fuel hm sel (Inner p) = Normal (Some e0) →
  ∃ k0 (j0 : nat), hm !! k0 = Some e0 ∧ order !! j0 = Some k0 ∧ (j0 ≤ j)%nat.
Proof.
  induction fuel as [|fuel IH]; intros j p e0 Hj; [done|].
  cbn [peerSearch lookupC].
  destruct (hm !! oid p) as [e|] eqn:He; [|done].
  destruct (_ =? 0).
  - intros [= <-]. by exists (oid p), j.
  - pose proof (Hord _ _ He ltac:(by eapply list_elem_of_lookup_2)) as Hearlier.
    destruct (superordinate e) as [|p'].
    + by destruct fuel.
    + destruct Hearlier as (i & j' & Hi & Hj' & Hlt).
      assert (j' = j) as -> by (eapply NoDup_lookup; eauto).
      intros Hs. destruct (IH i p' e0 Hi Hs) as (k0 & j0 & ? & ? & ?).
      exists k0, j0. repeat split; [done..|lia].
Qed.

End PeerSearch.

Lemma earlier_of_member (pre post : list node) (n p : node) :
  p ∈ pre → earlier (oid <$> (pre ++ n :: post)) (Inner p) (oid n).
Proof.
  intros Hin. apply list_elem_of_lookup_1 in Hin as [i Hi].
  exists i, (length pre). split; [|split].
  - rewrite list_lookup_fmap, lookup_app_l by (by eapply lookup_lt_Some).
    by rewrite Hi.
  - rewrite list_lookup_fmap, list_lookup_middle by done. done.
  - by eapply lookup_lt_Some.
Qed.

Lemma member_position (pre post : list node) (n p : node) :
  p ∈ pre →
  ∃ j : nat, (oid <$> (pre ++ n :: post)) !! j = Some (oid p) ∧ (j < length pre)%nat.
Proof.
  intros Hin. apply list_elem_of_lookup_1 in Hin as [i Hi].
  exists i. split; [|by eapply lookup_lt_Some].
  rewrite list_lookup_fmap, lookup_app_l by (by eapply lookup_lt_Some).
  by rewrite Hi.
Qed.

Lemma self_position (pre post : list node) (n : node) :
  (oid <$> (pre ++ n :: post)) !! length pre = Some (oid n).
Proof. by rewrite list_lookup_fmap, list_lookup_middle. Qed.

(** The entry [nodeLevelOf] writes names a superordinate visited earlier. *)
Lemma nodeLevelOf_ordered cfg fuel pre post ancestors prev n s :
  NoDup (oid <$> (pre ++ n :: post)) →
  ordered (oid <$> (pre ++ n :: post)) (hierarchyMap s) →
  in_context pre ancestors prev →
  ordered (oid <$> (pre ++ n :: post))
    (hierarchyMap (nodeLevelOf cfg fuel ancestors prev n s).2).
Proof.
  intros Hnd Hord [Hanc Hprev]. unfold nodeLevelOf. rewrite bind_run. simpl.
  destruct (hierarchical cfg).
  - unfold hierarchicalSelectorsLevel. destruct prev as [p|]; [|done].
    specialize (Hprev p eq_refl).
    destruct (_ || _); [done|]. destruct (selector n) as [sel|]; [|done].
    rewrite bind_run; simpl. destruct (_ =? 0).
    + simpl. apply ordered_insert; [done|]. by apply earlier_of_member.
    + destruct (peerSearch fuel (hierarchyMap s) sel (Inner p)) as [[e0|]| |] eqn:Hs;
        [|done..].
      simpl. apply ordered_insert; [done|]. simpl.
      destruct (member_position pre post n p Hprev) as (j & Hj & Hlt).
      destruct (peerSearch_found _ _ sel Hnd Hord fuel j p e0 Hj Hs)
        as (k0 & j0 & Hk0 & Hj0 & Hle).
      pose proof (Hord _ _ Hk0 ltac:(by eapply list_elem_of_lookup_2)) as He.
      destruct (superordinate e0) as [|p']; [done|].
      destruct He as (i & j' & Hi & Hj' & Hlt').
      assert (j' = j0) as -> by (eapply NoDup_lookup; eauto).
      exists i, (length pre). split; [done|]. split; [apply self_position | lia].
  - simpl. apply ordered_insert; [done|]. simpl.
    destruct ancestors as [|a anc]; [done|]. simpl.
    apply earlier_of_member. by inversion Hanc.
Qed.

(** With more fuel than there are nodes, [nodeLevelOf] does not run out. *)
Lemma nodeLevelOf_ends cfg fuel pre post ancestors prev n s :
  NoDup (oid <$> (pre ++ n :: post)) →
  ordered (oid <$> (pre ++ n :: post)) (hierarchyMap s) →
  in_context pre ancestors prev →
  (length (pre ++ n :: post) < fuel)%nat →
  (nodeLevelOf cfg fuel ancestors prev n s).1 ≠ Diverge.
Proof.
  intros Hnd Hord [Hanc Hprev] Hfuel. unfold nodeLevelOf. rewrite bind_run. simpl.
  destruct (hierarchical cfg); [|done].
  unfold hierarchicalSelectorsLevel. destruct prev as [p|]; [|done].
  specialize (Hprev p eq_refl).
  destruct (_ || _); [done|]. destruct (selector n) as [sel|]; [|done].
  rewrite bind_run; simpl. destruct (_ =? 0); [done|].
  destruct (member_position pre post n p Hprev) as (j & Hj & Hlt).
  pose proof (peerSearch_ends _ _ sel Hnd Hord j fuel p Hj) as Hends.
  rewrite length_app in Hfuel. simpl in Hfuel.
  specialize (Hends ltac:(lia)).
  by destruct (peerSearch fuel (hierarchyMap s) sel (Inner p)) as [[e0|]| |].
Qed.

Lemma callback_ordered cfg fuel r pre post ancestors prev n s :
  NoDup (oid <$> (pre ++ n :: post)) →
  ordered (oid <$> (pre ++ n :: post)) (hierarchyMap s) →
  in_context pre ancestors prev →
  ordered (oid <$> (pre ++ n :: post))
    (hierarchyMap (callback cfg fuel r ancestors prev n s).2).
Proof.
  intros Hnd Hord Hctx. rewrite callback_eq. destruct (node_type_eqb _ _); [done|].
  rewrite bind_run.
  pose proof (nodeLevelOf_ordered cfg fuel pre post ancestors prev n s Hnd Hord Hctx) as H.
  destruct (nodeLevelOf cfg fuel ancestors prev n s) as [[lvl| |] s1]; [|done..].
  by destruct (reporter_checksOf cfg r n lvl) as (c' & ws & _ & ->).
Qed.

Lemma callback_ends cfg fuel r pre post ancestors prev n s :
  NoDup (oid <$> (pre ++ n :: post)) →
  ordered (oid <$> (pre ++ n :: post)) (hierarchyMap s) →
  in_context pre ancestors prev →
  (length (pre ++ n :: post) < fuel)%nat →
  (callback cfg fuel r ancestors prev n s).1 ≠ Diverge.
Proof.
  intros Hnd Hord Hctx Hfuel. rewrite callback_eq.
  destruct (node_type_eqb _ _); [done|]. rewrite bind_run.
  pose proof (nodeLevelOf_ends cfg fuel pre post ancestors prev n s Hnd Hord Hctx Hfuel) as H.
  destruct (nodeLevelOf cfg fuel ancestors prev n s) as [[lvl| |] s1]; [|done..].
  by destruct (reporter_checksOf cfg r n lvl) as (c' & ws & Hc & ->).
Qed.

Lemma replay_lookup_in lg hm k e :
  NoDup lg.*1 → (k, e) ∈ lg → replay lg hm !! k = Some e.
Proof.
  induction lg as [|[k' e'] lg IH] using rev_ind; [by intros _ ?%elem_of_nil|].
  rewrite fmap_app, replay_snoc. simpl. intros Hnd Hin.
  apply NoDup_app in Hnd as (Hnd & Hdisj & _).
  apply elem_of_app in Hin as [Hin|Hin].
  - rewrite lookup_insert_ne; [by apply IH|]. intros <-.
    apply (Hdisj k'); [|by left].
    apply list_elem_of_fmap. by exists (k', e).
  - apply list_elem_of_singleton in Hin as [= -> ->]. by rewrite lookup_insert_eq.
Qed.

(** Whatever the options and the fuel, an invocation on the tree keeps the
    order of superordinates, and an invocation on a tree with other nodes
    does not touch the entries of this one: the map has the property after
    any history of such invocations. *)
Lemma ordered_kept_by_invocation cfg fuel r hm :
  distinct_nodes r →
  ordered (oid <$> preorder (root_nodes r)) hm →
  ordered (oid <$> preorder (root_nodes r)) (hierarchyMap (invoke cfg fuel r hm).2).
Proof.
  intros Hnd Hord.
  set (order := preorder (root_nodes r)) in *.
  set (Inv := λ (_ : list node) (s : state), ordered (oid <$> order) (hierarchyMap s)).
  set (Ab := λ (_ : completion unit) (s : state),
             ordered (oid <$> order) (hierarchyMap s)).
  assert (Hrule : outcome_ok Inv Ab ([] ++ order) (invoke cfg fuel r hm)).
  { apply (rule_eachInside cfg fuel r order Inv Ab) with (post := []).
    - intros pre post anc pv n s Ho Hctx HI. unfold Inv, Ab in *.
      unfold distinct_nodes in Hnd. fold order in Hnd. clear Hord.
      rewrite Ho in Hnd, HI |- *.
      pose proof (callback_ordered cfg fuel r pre post anc pv n s Hnd HI Hctx) as H1.
      by destruct (callback cfg fuel r anc pv n s) as [[[]| |] s1].
    - by rewrite app_nil_r.
    - split; [constructor | done].
    - exact Hord. }
  by destruct (invoke cfg fuel r hm) as [[[]| |] s1].
Qed.

Lemma ordered_kept_by_unrelated cfg fuel r r' hm :
  (∀ k, k ∈ oid <$> preorder (root_nodes r') → k ∉ oid <$> preorder (root_nodes r)) →
  ordered (oid <$> preorder (root_nodes r)) hm →
  ordered (oid <$> preorder (root_nodes r)) (hierarchyMap (invoke cfg fuel r' hm).2).
Proof.
  intros Hun Hord k e Hl Hk. apply Hord; [|done].
  rewrite <- Hl. symmetry. unfold invoke, check. apply frame_each.
  intros Hk'. by apply (Hun k).
Qed.

(** C10: the peer search ends.  In a tree of distinct nodes, started from a
    map in which every entry of a node of the tree names a superordinate
    visited earlier (the empty map is one), every entry the traversal
    creates names a superordinate visited strictly earlier; the resulting
    map has the same property, so a walk along superordinates moves
    strictly backwards in the traversal order and, given more tests than
    the tree has nodes, reaches a match or a node without entry: the
    invocation does not run for ever, nor does a walk started afterwards. *)
Theorem C10_peer_search_terminates (cfg : config) (fuel : nat) (r : root) (hm : hmap) :
  let order := oid <$> preorder (root_nodes r) in
  distinct_nodes r →
  ordered order hm →
  (length order < fuel)%nat →
  let out := invoke cfg fuel r hm in
  out.1 ≠ Diverge
  ∧ (∀ k e, (k, e) ∈ sets out.2 → earlier order (superordinate e) k)
  ∧ ordered order (hierarchyMap out.2)
  ∧ (∀ sel p, p ∈ preorder (root_nodes r) →
       peerSearch fuel (hierarchyMap out.2) sel (Inner p) ≠ Diverge).
Proof.
  intros order Hnd Hord Hfuel out.
  set (Inv := λ (_ : list node) (s : state), ordered order (hierarchyMap s)).
  set (Ab := λ (c : completion unit) (s : state),
             c ≠ Diverge ∧ ordered order (hierarchyMap s)).
  assert (Hrule : outcome_ok Inv Ab ([] ++ preorder (root_nodes r)) out).
  { apply (rule_eachInside cfg fuel r (preorder (root_nodes r)) Inv Ab) with (post := []).
    - intros pre post anc pv n s Ho Hctx HI. unfold Inv, Ab, order in *.
      unfold distinct_nodes in Hnd. rewrite length_fmap in Hfuel.
      clear Hord. rewrite Ho in Hnd, HI, Hfuel |- *.
      pose proof (callback_ordered cfg fuel r pre post anc pv n s Hnd HI Hctx) as H1.
      pose proof (callback_ends cfg fuel r pre post anc pv n s Hnd HI Hctx Hfuel) as H2.
      by destruct (callback cfg fuel r anc pv n s) as [[[]| |] s1].
    - by rewrite app_nil_r.
    - split; [constructor | done].
    - exact Hord. }
  assert (Hfinal : out.1 ≠ Diverge ∧ ordered order (hierarchyMap out.2)).
  { destruct out as [[[]| |] s1]; simpl in *; unfold Inv, Ab in *; naive_solver. }
  destruct Hfinal as [Hend Hord'].
  split; [done|]. split; [|split; [done|]].
  - intros k e Hin.
    destruct (invocation_sets cfg fuel r hm Hnd) as (Hk & Hmap & Hsub).
    fold out in Hk, Hmap, Hsub.
    apply (Hord' k e).
    + rewrite Hmap. by apply replay_lookup_in.
    + eapply elem_of_sublist; [|exact Hsub].
      apply list_elem_of_fmap. by exists (k, e).
  - intros sel p Hin. apply list_elem_of_lookup_1 in Hin as [j Hj].
    apply (peerSearch_ends order _ sel Hnd Hord' j fuel p).
    + unfold order. by rewrite list_lookup_fmap, Hj.
    + apply lookup_lt_Some in Hj. unfold order in Hfuel.
      rewrite length_fmap in Hfuel. lia.
Qed.

(* ===================================================================== *)
(** ** Two invocations: what an earlier run leaves in the map *)
(* ===================================================================== *)

(** The two maps hold the same entries for the nodes [ks]. *)
Definition agree (ks : list positive) (hmA hmB : hmap) : Prop :=
  ∀ k, k ∈ ks → hmA !! k = hmB !! k.

Lemma indentationLevel_agree cfg hmA hmB ancestors :
  Forall (λ a, hmA !! oid a = hmB !! oid a) ancestors →
  ∀ n lvl, indentationLevel cfg hmA n ancestors lvl
           = indentationLevel cfg hmB n ancestors lvl.
Proof.
  induction 1 as [|p anc Hp _ IH]; intros n lvl; simpl; [done|].
  rewrite <- Hp. destruct (hmA !! oid p); [done|]. by rewrite IH.
Qed.

Section PeerSearchAgree.
Variables (order : list positive) (hmA hmB : hmap) (sel : string) (bound : nat).
Hypothesis Hnodup : NoDup order.
Hypothesis Hord : ordered order hmA.
Hypothesis Hagree : ∀ (j : nat) k,
(j < bound)%nat → order !! j = Some k → hmA !! k = hmB !! k.

Lemma peerSearch_agree : ∀ (fuel j : nat) p,
(j < bound)%nat → order !! j = Some (oid p) →
peerSearch fuel hmA sel (Inner p) = peerSearch fuel hmB sel (Inner p).
Proof.
induction fuel as [|fuel IH]; intros j p Hlt Hj; [done|].
cbn [peerSearch lookupC]. rewrite <- (Hagree j (oid p) Hlt Hj).
destruct (hmA !! oid p) as [e|] eqn:He; [|done].
destruct (_ =? 0); [done|].
pose proof (Hord _ _ He ltac:(by eapply list_elem_of_lookup_2)) as Hearlier.
destruct (superordinate e) as [|p'].
- by destruct fuel.
- destruct Hearlier as (i & j' & Hi & Hj' & Hlt').
  assert (j' = j) as -> by (eapply NoDup_lookup; eauto).
  apply (IH i); [lia | done].
Qed.

End PeerSearchAgree.

Lemma agree_position (pre post : list node) (n : node) hmA hmB :
  NoDup (oid <$> (pre ++ n :: post)) →
  agree (oid <$> pre) hmA hmB →
  ∀ (j : nat) k, (j < length pre)%nat →
    (oid <$> (pre ++ n :: post)) !! j = Some k → hmA !! k = hmB !! k.
Proof.
  intros _ Hag j k Hlt Hj. apply Hag.
  rewrite fmap_app, lookup_app_l in Hj by (by rewrite length_fmap).
  by eapply list_elem_of_lookup_2.
Qed.

(** With the same entries for the nodes visited so far, [nodeLevelOf] does
    the same in both states. *)
Lemma nodeLevelOf_lockstep cfg fuel pre post ancestors prev n sA sB :
  NoDup (oid <$> (pre ++ n :: post)) →
  ordered (oid <$> (pre ++ n :: post)) (hierarchyMap sA) →
  in_context pre ancestors prev →
  agree (oid <$> pre) (hierarchyMap sA) (hierarchyMap sB) →
  (∃ c, nodeLevelOf cfg fuel ancestors prev n sA = (c, sA)
        ∧ nodeLevelOf cfg fuel ancestors prev n sB = (c, sB))
  ∨ (∃ e, nodeLevelOf cfg fuel ancestors prev n sA = (Normal (level e), setEntry n e sA)
          ∧ nodeLevelOf cfg fuel ancestors prev n sB = (Normal (level e), setEntry n e sB)).
Proof.
  intros Hnd Hord [Hanc Hprev] Hag.
  assert (Hlvl : indentationLevel cfg (hierarchyMap sA) n ancestors 0
                 = indentationLevel cfg (hierarchyMap sB) n ancestors 0).
  { apply indentationLevel_agree. eapply Forall_impl; [exact Hanc|].
    intros a Ha. apply Hag. by apply list_elem_of_fmap_2. }
  unfold nodeLevelOf. rewrite !bind_run. simpl. rewrite <- Hlvl.
  destruct (hierarchical cfg).
  - unfold hierarchicalSelectorsLevel. destruct prev as [p|]; [|left; eauto].
    specialize (Hprev p eq_refl).
    destruct (_ || _); [left; eauto|]. destruct (selector n) as [sel|]; [|left; eauto].
    rewrite !bind_run; simpl.
    rewrite <- (Hag (oid p)) by (by apply list_elem_of_fmap_2).
    destruct (_ =? 0).
    + right. by eexists (mkEntry _ _).
    + destruct (member_position pre post n p Hprev) as (j & Hj & Hlt).
      rewrite <- (peerSearch_agree _ (hierarchyMap sA) (hierarchyMap sB) sel
                    (length pre) Hnd Hord
                    (agree_position pre post n _ _ Hnd Hag) fuel j p Hlt Hj).
      destruct (peerSearch _ _ _ _) as [[e0|]| |]; [|left; eauto..].
      right. by eexists (mkEntry _ _).
  - right. by eexists (mkEntry _ _).
Qed.

(** The two shapes of what the callback does to a state. *)
Definition effect_of (n : node) (w : option entry) (ws : list warning)
    (s : state) : state :=
  addWarnings (match w with Some e => setEntry n e s | None => s end) ws.

Lemma callback_lockstep cfg fuel r pre post ancestors prev n sA sB :
  NoDup (oid <$> (pre ++ n :: post)) →
  ordered (oid <$> (pre ++ n :: post)) (hierarchyMap sA) →
  in_context pre ancestors prev →
  agree (oid <$> pre) (hierarchyMap sA) (hierarchyMap sB) →
  ∃ c w ws,
    callback cfg fuel r ancestors prev n sA = (c, effect_of n w ws sA)
    ∧ callback cfg fuel r ancestors prev n sB = (c, effect_of n w ws sB).
Proof.
  intros Hnd Hord Hctx Hag. rewrite callback_eq.
  destruct (node_type_eqb _ _).
  { exists (Normal tt), None, []. unfold effect_of. by rewrite !addWarnings_nil. }
  rewrite !bind_run.
  destruct (nodeLevelOf_lockstep cfg fuel pre post ancestors prev n sA sB Hnd Hord Hctx Hag)
    as [(c & -> & ->)|(e & -> & ->)].
  - destruct c as [lvl| |].
    + destruct (reporter_checksOf cfg r n lvl) as (c' & ws & _ & Hr).
      exists c', None, ws. by rewrite !Hr.
    + exists Throw, None, []. unfold effect_of. by rewrite !addWarnings_nil.
    + exists Diverge, None, []. unfold effect_of. by rewrite !addWarnings_nil.
  - destruct (reporter_checksOf cfg r n (level e)) as (c' & ws & _ & Hr).
    exists c', (Some e), ws. by rewrite !Hr.
Qed.

Lemma effect_of_lookup n w ws s k :
  k ≠ oid n → hierarchyMap (effect_of n w ws s) !! k = hierarchyMap s !! k.
Proof.
  intros Hne. destruct w as [e|]; simpl; [|done]. by rewrite lookup_insert_ne.
Qed.

Lemma walk_ordered cfg fuel r order pre post ancestors prev n s :
  order = pre ++ preorder_node n ++ post →
  NoDup (oid <$> order) → ordered (oid <$> order) (hierarchyMap s) →
  in_context pre ancestors prev →
  ordered (oid <$> order) (hierarchyMap (walk cfg fuel r ancestors prev n s).2).
Proof.
  intros Ho Hnd Hord Hctx.
  set (Inv := λ (_ : list node) (s : state), ordered (oid <$> order) (hierarchyMap s)).
  set (Ab := λ (_ : completion unit) (s : state),
             ordered (oid <$> order) (hierarchyMap s)).
  assert (Hrule : outcome_ok Inv Ab (pre ++ preorder_node n)
                    (walk cfg fuel r ancestors prev n s)).
  { apply (rule_walk cfg fuel r order Inv Ab) with (post := post); [|done..].
    intros pre' post' anc pv n' s' Ho' Hctx' HI. unfold Inv, Ab in *.
    clear Ho Hord. rewrite Ho' in Hnd, HI |- *.
    pose proof (callback_ordered cfg fuel r pre' post' anc pv n' s' Hnd HI Hctx') as H1.
    by destruct (callback cfg fuel r anc pv n' s') as [[[]| |] s1]. }
  by destruct (walk cfg fuel r ancestors prev n s) as [[[]| |] s1].
Qed.

Lemma eachInside_cons_run cfg fuel r ancestors prev c l s :
  eachInside cfg fuel r ancestors prev (c :: l) s =
  match walk cfg fuel r ancestors prev c s with
  | (Normal _, s1) => eachInside cfg fuel r ancestors (Some c) l s1
  | (Throw, s1) => (Throw, s1)
  | (Diverge, s1) => (Diverge, s1)
  end.
Proof. cbn [eachInside]. by rewrite bind_run. Qed.

Lemma walk_run cfg fuel r ancestors prev n s :
  walk cfg fuel r ancestors prev n s =
  match callback cfg fuel r ancestors prev n s with
  | (Normal _, s1) =>
      if isContainer n
      then eachInside cfg fuel r (n :: ancestors) None (nodes n) s1
      else (Normal tt, s1)
  | (Throw, s1) => (Throw, s1)
  | (Diverge, s1) => (Diverge, s1)
  end.
Proof.
  rewrite walk_unfold, bind_run.
  destruct (callback cfg fuel r ancestors prev n s) as [[[]| |] s1]; try done.
  by destruct (isContainer n).
Qed.

(** The second run [xB] went as the first run [xA]: same completion, same
    warnings, same calls of [hierarchyMap.set]; for the nodes of the part
    traversed the second map holds nothing that the first does not; after a
    normal end both maps agree on all nodes visited. *)
Definition lockstep_ok (pre part : list positive)
    (xA xB : completion unit * state) : Prop :=
  xA.1 = xB.1
  ∧ result xA.2 = result xB.2
  ∧ sets xA.2 = sets xB.2
  ∧ (∀ k, k ∈ part →
       hierarchyMap xB.2 !! k = None
       ∨ hierarchyMap xB.2 !! k = hierarchyMap xA.2 !! k)
  ∧ (xA.1 = Normal tt → agree (pre ++ part) (hierarchyMap xA.2) (hierarchyMap xB.2)).

Section Lockstep.
Variables (cfg : config) (fuel : nat) (r : root) (order : list node).
Hypothesis Hnd : NoDup (oid <$> order).

(** The premises under which a part of the traversal is run twice: the
  first state [sA] belongs to a run that has no entry yet for the nodes
  to come; the second state [sB] may hold for them what the first run
  will have written. *)
Record twice (pre part : list node) (ancestors : list node) (prev : option node)
  (sA sB : state) (finalA : state) : Prop := mkTwice {
tw_context : in_context pre ancestors prev;
tw_ordered : ordered (oid <$> order) (hierarchyMap sA);
tw_result : result sA = result sB;
tw_sets : sets sA = sets sB;
tw_agree : agree (oid <$> pre) (hierarchyMap sA) (hierarchyMap sB);
tw_fresh : ∀ k, k ∈ oid <$> part → hierarchyMap sA !! k = None;
tw_stale : ∀ k, k ∈ oid <$> part →
   hierarchyMap sB !! k = None
   ∨ hierarchyMap sB !! k = hierarchyMap finalA !! k
}.

Definition walk_lockstep (n : node) : Prop :=
∀ pre post ancestors prev sA sB,
  order = pre ++ preorder_node n ++ post →
  twice pre (preorder_node n) ancestors prev sA sB
    (walk cfg fuel r ancestors prev n sA).2 →
  lockstep_ok (oid <$> pre) (oid <$> preorder_node n)
    (walk cfg fuel r ancestors prev n sA) (walk cfg fuel r ancestors prev n sB).

Definition each_lockstep (l : list node) : Prop :=
∀ pre post ancestors prev sA sB,
  order = pre ++ preorder l ++ post →
  twice pre (preorder l) ancestors prev sA sB
    (eachInside cfg fuel r ancestors prev l sA).2 →
  lockstep_ok (oid <$> pre) (oid <$> preorder l)
    (eachInside cfg fuel r ancestors prev l sA)
    (eachInside cfg fuel r ancestors prev l sB).

Lemma each_lockstep_of_walk l : Forall walk_lockstep l → each_lockstep l.
Proof.
induction 1 as [|c l Hc _ IH]; intros pre post ancestors prev sA sB Ho Htw.
{ destruct Htw. unfold lockstep_ok. simpl. rewrite app_nil_r.
  by repeat split. }
destruct Htw as [Hctx Hord Hres Hsets Hag Hfresh Hstale].
cbn [preorder] in *.
pose proof Hnd as Hnd'. rewrite Ho, !fmap_app in Hnd'.
apply NoDup_app in Hnd' as (_ & _ & Hnd').
apply NoDup_app in Hnd' as (Hnd' & _ & _).
apply NoDup_app in Hnd' as (_ & Hdisj & _).
assert (Hdisj' : ∀ k, k ∈ oid <$> preorder l → k ∉ oid <$> preorder_node c).
{ intros k Hl Hcin. by apply (Hdisj k). }
rewrite <- app_assoc in Ho.
(* the first child and all below it *)
assert (Hc' : lockstep_ok (oid <$> pre) (oid <$> preorder_node c)
                (walk cfg fuel r ancestors prev c sA)
                (walk cfg fuel r ancestors prev c sB)).
{ apply (Hc pre (preorder l ++ post)); [done|]. split; try done.
  - intros k Hk. apply Hfresh. rewrite fmap_app. apply elem_of_app; by left.
  - intros k Hk. destruct (Hstale k) as [?|Hs]; [|by left|].
    { rewrite fmap_app. apply elem_of_app; by left. }
    right. rewrite Hs, eachInside_cons_run.
    destruct (walk cfg fuel r ancestors prev c sA) as [[[]| |] s1]; try done.
    simpl. apply frame_each. by apply Hdisj. }
pose proof (walk_ordered cfg fuel r order pre (preorder l ++ post) ancestors prev c sA
              Ho Hnd Hord Hctx) as Hord1.
pose proof (λ k, frame_walk cfg fuel r c ancestors prev sA k) as HframeA.
pose proof (λ k, frame_walk cfg fuel r c ancestors prev sB k) as HframeB.
rewrite !eachInside_cons_run. rewrite eachInside_cons_run in Hstale.
destruct (walk cfg fuel r ancestors prev c sA) as [cA sA1].
destruct (walk cfg fuel r ancestors prev c sB) as [cB sB1].
destruct Hc' as (Hcomp & Hres1 & Hsets1 & Hst1 & Hag1). simpl in *. subst cB.
destruct cA as [[]| |].
- (* the remaining children *)
  specialize (Hag1 eq_refl).
  assert (Hl : lockstep_ok (oid <$> (pre ++ preorder_node c)) (oid <$> preorder l)
                 (eachInside cfg fuel r ancestors (Some c) l sA1)
                 (eachInside cfg fuel r ancestors (Some c) l sB1)).
  { apply (IH (pre ++ preorder_node c) post); [by rewrite <- app_assoc|].
    split; try done.
    - destruct Hctx as [Ha _]. split.
      + eapply Forall_impl; [exact Ha|]. intros a Hin. apply elem_of_app; by left.
      + intros p [= <-]. apply elem_of_app; right.
        rewrite preorder_node_unfold. by left.
    - by rewrite fmap_app.
    - intros k Hk. rewrite HframeA by (by apply Hdisj').
      apply Hfresh. rewrite fmap_app. apply elem_of_app; by right.
    - intros k Hk. rewrite HframeB by (by apply Hdisj').
      apply Hstale. rewrite fmap_app. apply elem_of_app; by right. }
  destruct Hl as (Hcomp2 & Hres2 & Hsets2 & Hst2 & Hag2).
  split; [done|]. split; [done|]. split; [done|]. split.
  + intros k Hk. rewrite fmap_app in Hk. apply elem_of_app in Hk as [Hk|Hk].
    * right. rewrite !frame_each by (by apply Hdisj).
      symmetry. apply Hag1. apply elem_of_app; by right.
    * by apply Hst2.
  + intros Hn. specialize (Hag2 Hn). by rewrite !fmap_app, app_assoc, <- fmap_app.
- split; [done|]. split; [done|]. split; [done|]. split; [|done].
  intros k Hk. rewrite fmap_app in Hk. apply elem_of_app in Hk as [Hk|Hk].
  + by apply Hst1.
  + rewrite HframeB by (by apply Hdisj'). apply Hstale.
    rewrite fmap_app. apply elem_of_app; by right.
- split; [done|]. split; [done|]. split; [done|]. split; [|done].
  intros k Hk. rewrite fmap_app in Hk. apply elem_of_app in Hk as [Hk|Hk].
  + by apply Hst1.
  + rewrite HframeB by (by apply Hdisj'). apply Hstale.
    rewrite fmap_app. apply elem_of_app; by right.
Qed.

Lemma effect_of_outputs n w ws sA sB :
  result sA = result sB → sets sA = sets sB →
  result (effect_of n w ws sA) = result (effect_of n w ws sB)
  ∧ sets (effect_of n w ws sA) = sets (effect_of n w ws sB).
Proof. intros Hr Hs. destruct w; simpl; by rewrite Hr, Hs. Qed.

Lemma effect_of_self n w ws sA sB :
  (w = None → hierarchyMap sA !! oid n = hierarchyMap sB !! oid n) →
  hierarchyMap (effect_of n w ws sA) !! oid n
  = hierarchyMap (effect_of n w ws sB) !! oid n.
Proof. intros H. destruct w; simpl; [by rewrite !lookup_insert_eq | by apply H]. Qed.

Lemma walk_lockstep_all n : walk_lockstep n.
Proof.
induction n as [i ty b a sel v l1 l2 ch IH] using node_forall_ind.
intros pre post ancestors prev sA sB Ho Htw.
set (n := mkNode i ty b a sel v l1 l2 ch) in *.
destruct Htw as [Hctx Hord Hres Hsets Hag Hfresh Hstale].
pose proof (each_lockstep_of_walk (nodes n) IH) as Hkids. clear IH.
rewrite preorder_node_unfold in *.
set (kids := if isContainer n then preorder (nodes n) else []) in *.
cbn [app] in Ho.
pose proof Hnd as Hnd'. rewrite Ho in Hnd'.
pose proof Hord as Hord'. rewrite Ho in Hord'.
destruct (callback_lockstep cfg fuel r pre (kids ++ post) ancestors prev n sA sB
            Hnd' Hord' Hctx Hag) as (c & w & ws & HcbA & HcbB).
pose proof (callback_ordered cfg fuel r pre (kids ++ post) ancestors prev n sA
              Hnd' Hord' Hctx) as Hord1.
rewrite HcbA in Hord1. simpl in Hord1. rewrite <- Ho in Hord1.
destruct (effect_of_outputs n w ws sA sB Hres Hsets) as [Hres1 Hsets1].
rewrite fmap_app, fmap_cons, fmap_app in Hnd'.
apply NoDup_app in Hnd' as (_ & HdisjP & Hnd').
apply NoDup_cons in Hnd' as (Hself & _).
rewrite not_elem_of_app in Hself. destruct Hself as [Hself _].
assert (HneP : ∀ k, k ∈ oid <$> pre → k ≠ oid n).
{ intros k Hk ->. apply (HdisjP _ Hk). by left. }
assert (HneK : ∀ k, k ∈ oid <$> kids → k ≠ oid n) by (by intros k Hk ->).
rewrite !walk_run, HcbA, HcbB. rewrite walk_run, HcbA in Hstale.
assert (HstaleK : ∀ k, k ∈ oid <$> kids →
  hierarchyMap (effect_of n w ws sB) !! k = None
  ∨ hierarchyMap (effect_of n w ws sB) !! k =
    hierarchyMap (match c with
                  | Normal _ =>
                      if isContainer n
                      then eachInside cfg fuel r (n :: ancestors) None (nodes n)
                             (effect_of n w ws sA)
                      else (Normal tt, effect_of n w ws sA)
                  | Throw => (Throw, effect_of n w ws sA)
                  | Diverge => (Diverge, effect_of n w ws sA)
                  end).2 !! k).
{ intros k Hk. rewrite effect_of_lookup by (by apply HneK).
  apply Hstale. rewrite fmap_cons. by right. }
destruct c as [[]| |]; cbn [fst snd] in *.
- (* the callback completed *)
  assert (Hself1 : hierarchyMap (effect_of n w ws sA) !! oid n
                   = hierarchyMap (effect_of n w ws sB) !! oid n).
  { apply effect_of_self. intros ->. rewrite Hfresh by (rewrite fmap_cons; by left).
    destruct (Hstale (oid n)) as [HB|HB]; [rewrite fmap_cons; by left | done |].
    rewrite HB. subst kids. destruct (isContainer n).
    - rewrite frame_each by done. simpl. symmetry. apply Hfresh.
      rewrite fmap_cons. by left.
    - simpl. symmetry. apply Hfresh. rewrite fmap_cons. by left. }
  assert (Hag1 : agree (oid <$> (pre ++ [n]))
                   (hierarchyMap (effect_of n w ws sA))
                   (hierarchyMap (effect_of n w ws sB))).
  { intros k Hk. rewrite fmap_app in Hk. apply elem_of_app in Hk as [Hk|Hk].
    - rewrite !effect_of_lookup by (by apply HneP). by apply Hag.
    - apply list_elem_of_singleton in Hk as ->. exact Hself1. }
  subst kids. destruct (isContainer n).
  + assert (Hl : lockstep_ok (oid <$> (pre ++ [n])) (oid <$> preorder (nodes n))
       (eachInside cfg fuel r (n :: ancestors) None (nodes n) (effect_of n w ws sA))
       (eachInside cfg fuel r (n :: ancestors) None (nodes n) (effect_of n w ws sB))).
    { apply (Hkids (pre ++ [n]) post); [by rewrite Ho, <- app_assoc|].
      split; try done.
      - destruct Hctx as [Ha _]. split; [|done]. constructor.
        + apply elem_of_app; right; by left.
        + eapply Forall_impl; [exact Ha|]. intros x Hin. apply elem_of_app; by left.
      - intros k Hk. rewrite effect_of_lookup by (by apply HneK).
        apply Hfresh. rewrite fmap_cons. by right. }
    destruct Hl as (Hcomp2 & Hres2 & Hsets2 & Hst2 & Hag2).
    split; [done|]. split; [done|]. split; [done|]. split.
    * intros k Hk. rewrite fmap_cons in Hk. apply elem_of_cons in Hk as [->|Hk].
      -- right. by rewrite !frame_each.
      -- by apply Hst2.
    * intros Hn. specialize (Hag2 Hn).
      by rewrite fmap_app, <- app_assoc in Hag2.
  + split; [done|]. split; [done|]. split; [done|]. split.
    * intros k Hk. apply list_elem_of_singleton in Hk as ->. by right.
    * intros _. by rewrite fmap_app in Hag1.
- split; [done|]. split; [done|]. split; [done|]. split; [|done].
  intros k Hk. rewrite fmap_cons in Hk. apply elem_of_cons in Hk as [->|Hk].
  + destruct w as [e|]; [right; simpl; by rewrite !lookup_insert_eq|].
    simpl. apply Hstale. rewrite fmap_cons. by left.
  + by apply HstaleK.
- split; [done|]. split; [done|]. split; [done|]. split; [|done].
  intros k Hk. rewrite fmap_cons in Hk. apply elem_of_cons in Hk as [->|Hk].
  + destruct w as [e|]; [right; simpl; by rewrite !lookup_insert_eq|].
    simpl. apply Hstale. rewrite fmap_cons. by left.
  + by apply HstaleK.
Qed.

Lemma eachInside_lockstep l : each_lockstep l.
Proof.
apply each_lockstep_of_walk, Forall_forall. intros c _. apply walk_lockstep_all.
Qed.

End Lockstep.

(** The nodes of the first tree are none of the second's. *)
Definition unrelated (r1 r2 : root) : Prop :=
  ∀ k, k ∈ oid <$> preorder (root_nodes r1) → k ∉ oid <$> preorder (root_nodes r2).

(** The module-level map after the invocations on [rs], in order. *)
Definition after_invocations (cfg : config) (fuel : nat) (rs : list root)
    (hm : hmap) : hmap :=
  foldl (λ m r', hierarchyMap (invoke cfg fuel r' m).2) hm rs.

(** The map holds, for the nodes of [r], nothing but what an invocation on
    [r] alone writes. *)
Definition harmless (cfg : config) (fuel : nat) (r : root) (hm : hmap) : Prop :=
  ∀ k, k ∈ oid <$> preorder (root_nodes r) →
    hm !! k = None ∨ hm !! k = hierarchyMap (invoke cfg fuel r ∅).2 !! k.

Lemma invoke_harmless cfg fuel r hm :
  distinct_nodes r → harmless cfg fuel r hm →
  (invoke cfg fuel r hm).1 = (invoke cfg fuel r ∅).1
  ∧ result (invoke cfg fuel r hm).2 = result (invoke cfg fuel r ∅).2
  ∧ sets (invoke cfg fuel r hm).2 = sets (invoke cfg fuel r ∅).2
  ∧ harmless cfg fuel r (hierarchyMap (invoke cfg fuel r hm).2).
Proof.
  intros Hnd Hh.
  pose proof (eachInside_lockstep cfg fuel r (preorder (root_nodes r)) Hnd
                (root_nodes r) [] [] [] None (mkState ∅ [] []) (mkState hm [] [])) as H.
  destruct H as (H1 & H2 & H3 & H4 & _).
  - by rewrite app_nil_r.
  - split.
    + split; [constructor | done].
    + intros k e Hl. simpl in Hl. by rewrite lookup_empty in Hl.
    + done.
    + done.
    + intros k Hk. by apply elem_of_nil in Hk.
    + intros k _. apply lookup_empty.
    + exact Hh.
  - unfold invoke, check. by repeat split.
Qed.

Lemma invoke_unrelated cfg fuel r r' hm :
  unrelated r' r → harmless cfg fuel r hm →
  harmless cfg fuel r (hierarchyMap (invoke cfg fuel r' hm).2).
Proof.
  intros Hun Hh k Hk. unfold invoke at 1 2, check.
  rewrite frame_each; [by apply Hh|]. intros Hk'. by apply (Hun k).
Qed.

Lemma after_invocations_harmless cfg fuel r rs : ∀ hm,
  distinct_nodes r →
  Forall (λ r', r' = r ∨ unrelated r' r) rs →
  harmless cfg fuel r hm →
  harmless cfg fuel r (after_invocations cfg fuel rs hm).
Proof.
  induction rs as [|r' rs IH]; intros hm Hnd Hall Hh; [done|].
  inversion Hall as [|? ? Hr' Hrs]; subst. simpl. apply IH; [done..|].
  destruct Hr' as [->|Hun].
  - by apply invoke_harmless.
  - by apply invoke_unrelated.
Qed.

(** C1: an invocation is not influenced by earlier ones.  After any
    sequence of invocations of the same rule function, each on the same
    tree or on a tree with other nodes, an invocation on a tree of distinct
    nodes ends as it does when run alone, with the same completion and the
    same violations.  (The map itself is the module-level one and keeps the
    entries of earlier runs; they are entries of other nodes, or are written
    anew before they are read.) *)
Theorem C1_no_influence_between_runs (cfg : config) (fuel : nat)
    (earlier_trees : list root) (r : root) :
  distinct_nodes r →
  Forall (λ r', r' = r ∨ unrelated r' r) earlier_trees →
  let hm := after_invocations cfg fuel earlier_trees ∅ in
  (invoke cfg fuel r hm).1 = (invoke cfg fuel r ∅).1
  ∧ result (invoke cfg fuel r hm).2 = result (invoke cfg fuel r ∅).2.
Proof.
  intros Hnd Hall hm.
  assert (Hh : harmless cfg fuel r hm).
  { apply after_invocations_harmless; [done..|]. intros k _. by left. }
  by destruct (invoke_harmless cfg fuel r hm Hnd Hh) as (? & ? & _).
Qed.

(* ===================================================================== *)
(** ** The "block" exception *)
(* ===================================================================== *)

(** The number of nodes between a node and the root. *)
Definition nestedDepth (ancestors : list node) : Z := Z.of_nat (length ancestors).

Definition isDecl (n : node) : bool := node_type_eqb (type n) decl.

Lemma nodeLevelOf_plain cfg fuel ancestors prev n s :
  hierarchical cfg = false →
  let lvl := indentationLevel cfg (hierarchyMap s) n ancestors 0 in
  nodeLevelOf cfg fuel ancestors prev n s
  = (Normal lvl, setEntry n (mkEntry (parent ancestors) lvl) s).
Proof.
  intros Hh. unfold nodeLevelOf. rewrite bind_run. simpl. by rewrite Hh.
Qed.

(** C3, as the code has it: with the "block" exception a node directly
    under the root gets level 0; a node whose parent has an entry in the
    hierarchy map gets the level of that entry if it is a rule or an
    at-rule (the candidate, parent level plus one, less one) and that level
    plus one if it is a declaration.  Without hierarchicalSelectors every
    node is entered with its level under its parent, so a block nested
    directly in a block [p] gets the level of [p], and a declaration in it
    that level plus one. *)
Theorem C3_block_exception_levels (cfg : config) (fuel : nat)
    (ancestors : list node) (p n : node) :
  Utils.optionsHaveException (options cfg) "block" = true →
  (∀ hm, indentationLevel cfg hm n [] 0 = 0)
  ∧ (∀ hm e, hm !! oid p = Some e →
       indentationLevel cfg hm n (p :: ancestors) 0
       = if isDecl n then level e + 1 else level e)
  ∧ (hierarchical cfg = false →
     ∀ prevP prevN sP sN,
       let levelP := (nodeLevelOf cfg fuel ancestors prevP p sP).1 in
       let sP' := (nodeLevelOf cfg fuel ancestors prevP p sP).2 in
       hierarchyMap sN !! oid p = hierarchyMap sP' !! oid p →
       ∃ lp, levelP = Normal lp
             ∧ hierarchyMap sP' !! oid p = Some (mkEntry (parent ancestors) lp)
             ∧ (nodeLevelOf cfg fuel (p :: ancestors) prevN n sN).1
               = Normal (if isDecl n then lp + 1 else lp)).
Proof.
  intros Hblock. split; [done|]. split.
  - intros hm e He. cbn [indentationLevel]. rewrite He, Hblock. unfold isDecl.
    destruct (node_type_eqb (type n) decl); simpl; lia.
  - intros Hh prevP prevN sP sN. cbn zeta.
    rewrite (nodeLevelOf_plain cfg fuel ancestors prevP p sP Hh).
    rewrite (nodeLevelOf_plain cfg fuel (p :: ancestors) prevN n sN Hh).
    cbn [fst snd]. simpl hierarchyMap. rewrite lookup_insert_eq. intros Hp.
    eexists. split; [done|]. split; [done|].
    cbn [indentationLevel]. rewrite Hp, Hblock. unfold isDecl. cbn [level].
    destruct (node_type_eqb (type n) decl); simpl; f_equal; lia.
Qed.

(* ===================================================================== *)
(** ** Sample trees, and the theorems at work on them *)
(* ===================================================================== *)

Module Samples.

Definition nl : string := JS.newline.

Definition block (i : positive) (sel bef aft : string) (l1 l2 : Z)
  (children : list node) : node :=
mkNode i rule bef (Some aft) (Some sel) None l1 l2 children.

Definition declaration (i : positive) (bef v : string) (l : Z) : node :=
mkNode i decl bef None None (Some v) l l [].

Definition two_spaces : config := mkConfig (spaces 2) None.
Definition tabs : config := mkConfig tab None.
Definition hierarchy : config := mkConfig (spaces 2) (Some (mkOptions [] true)).
Definition flat_blocks : config :=
mkConfig (spaces 2) (Some (mkOptions ["block"%string] false)).

Definition fresh : state := mkState ∅ [] [].

(** [.foo {}] followed by [.foobar {}]. *)
Definition foo : node := block 1 ".foo" "" "" 1 1 [].
Definition foobar : node := block 2 ".foobar" nl "" 2 2 [].

(** [A {}], [A B {}], [A B C {}], [A D {}]. *)
Definition ruleA : node := block 1 "A" "" "" 1 1 [].
Definition ruleAB : node := block 2 "A B" (nl +:+ "  ") "" 2 2 [].
Definition ruleABC : node := block 3 "A B C" (nl +:+ "    ") "" 3 3 [].
Definition ruleAD : node := block 4 "A D" (nl +:+ "  ") "" 4 4 [].
Definition chain : root := mkRoot [ruleA; ruleAB; ruleABC; ruleAD].

(** [a { b { c {} } }], every line flush left. *)
Definition innermost : node := block 3 "c" nl nl 3 4 [].
Definition middle : node := block 2 "b" nl nl 2 5 [innermost].
Definition outer : node := block 1 "a" "" nl 1 6 [middle].
Definition nested : root := mkRoot [outer].

(** A declaration whose value continues on a second line. *)
Definition two_lines : string := "1px" +:+ nl +:+ " 2px".
Definition margin : node := declaration 12 (nl +:+ "  ") two_lines 2.
Definition body : node := block 11 "body" "" nl 1 4 [margin].
Definition sheet : root := mkRoot [body].

(** A value that ends in a newline and blanks. *)
Definition dangling : string := "1px" +:+ nl +:+ "  ".

End Samples.

Import Samples.

Example run_chain :
  (invoke hierarchy 2 chain ∅).1 = Normal tt
  ∧ result (invoke hierarchy 2 chain ∅).2 = []
  ∧ (sets (invoke hierarchy 2 chain ∅).2).*1 = [2; 3; 4]%positive
  ∧ level <$> (sets (invoke hierarchy 2 chain ∅).2).*2 = [1; 2; 1].
Proof. vm_compute. done. Qed.

Example run_sheet :
  result (invoke two_spaces 1 sheet ∅).2
  = [mkWarning "Expected indentation of 4 spaces at line 3" 12 3].
Proof. vm_compute. done. Qed.

Example closing_brace_tab_mode :
  result (invoke tabs 1 (mkRoot [block 1 "a" "" (nl +:+ " ") 1 2 []]) ∅).2
  = [mkWarning "Expected indentation of 0 tabs at line 2" 1 2].
Proof. vm_compute. done. Qed.

(** The map is the module-level one: an invocation leaves its entries in it. *)
Example hierarchy_map_persists :
  dom (hierarchyMap (invoke two_spaces 1 sheet ∅).2) = {[11; 12]}%positive.
Proof. vm_compute. done. Qed.

Lemma C1_witness :
  distinct_nodes sheet
  ∧ (invoke hierarchy 2 sheet (after_invocations hierarchy 2 [sheet; chain; sheet] ∅)).1
    = (invoke hierarchy 2 sheet ∅).1
  ∧ result (invoke hierarchy 2 sheet
              (after_invocations hierarchy 2 [sheet; chain; sheet] ∅)).2
    = result (invoke hierarchy 2 sheet ∅).2.
Proof.
  assert (Hd : distinct_nodes sheet).
  { unfold distinct_nodes. apply (bool_decide_unpack _). vm_compute. exact I. }
  split; [exact Hd|].
  apply (C1_no_influence_between_runs hierarchy 2 [sheet; chain; sheet] sheet Hd).
  assert (Hun : unrelated chain sheet).
  { assert (Hf : Forall (λ k, k ∉ oid <$> preorder (root_nodes sheet))
                   (oid <$> preorder (root_nodes chain)))
      by (apply (bool_decide_unpack _); by vm_compute).
    intros k Hk. by apply (proj1 (Forall_forall _ _) Hf). }
  constructor; [by left|]. constructor; [by right|].
  constructor; [by left | constructor].
Defined.



(** A rule directly under the root has depth 0 and level 0, not -1; the
    rule at depth 2 of [nested] is entered with level 0, not 1. *)
Lemma C3_counterexample :
  Utils.optionsHaveException (options flat_blocks) "block" = true
  ∧ isDecl outer = false ∧ isDecl innermost = false
  ∧ indentationLevel flat_blocks ∅ outer [] 0 = 0
  ∧ indentationLevel flat_blocks ∅ outer [] 0 ≠ nestedDepth [] - 1
  ∧ level <$> hierarchyMap (invoke flat_blocks 1 nested ∅).2 !! oid innermost = Some 0
  ∧ nestedDepth [middle; outer] - 1 = 1.
Proof. vm_compute. repeat split; congruence. Qed.

Lemma C3_witness :
  Utils.optionsHaveException (options flat_blocks) "block" = true
  ∧ (∀ hm, indentationLevel flat_blocks hm outer [] 0 = 0)
  ∧ (nodeLevelOf flat_blocks 1 [outer] None middle
       (nodeLevelOf flat_blocks 1 [] None outer fresh).2).1 = Normal 0.
Proof.
  assert (Hb : Utils.optionsHaveException (options flat_blocks) "block" = true)
    by reflexivity.
  destruct (C3_block_exception_levels flat_blocks 1 [] outer middle Hb)
    as (H1 & _ & H3).
  split; [exact Hb|]. split.
  - intros hm. by destruct (C3_block_exception_levels flat_blocks 1 [] outer outer Hb).
  - destruct (H3 eq_refl None None fresh
                (nodeLevelOf flat_blocks 1 [] None outer fresh).2 eq_refl)
      as (lp & Hlp & _ & Hn).
    injection Hlp as <-. exact Hn.
Defined.

Lemma C4_witness :
  Forall (λ t, Text.has_nonspace t = true) (Text.after_newlines two_lines)
  ∧ checkValue two_spaces margin two_lines 1 fresh
    = (Normal tt, addWarnings fresh [violation two_spaces margin 2 3]).
Proof.
  assert (H : Forall (λ t, Text.has_nonspace t = true) (Text.after_newlines two_lines))
    by (repeat constructor).
  split; [exact H|].
  exact (proj2 (C4_value_check two_spaces margin two_lines 1 fresh) H).
Defined.

Lemma C5_witness :
  Text.contains_newline (before margin) = true
  ∧ Text.after_last_newline (before margin) ≠ JS.repeat (indentChar two_spaces) 2
  ∧ checkBefore two_spaces sheet margin 2 (JS.repeat (indentChar two_spaces) 2) fresh
    = (Normal tt, addWarnings fresh [violation two_spaces margin 2 2]).
Proof.
  assert (H1 : Text.contains_newline (before margin) = true) by reflexivity.
  assert (H2 : Text.after_last_newline (before margin)
               ≠ JS.repeat (indentChar two_spaces) 2) by (vm_compute; congruence).
  split; [exact H1|]. split; [exact H2|].
  apply (proj1 (C5_leading_whitespace two_spaces 1 sheet [body] None margin 2 fresh)).
  split; [by right | exact H2].
Defined.

Lemma C7_witness :
  nodeLevelOf hierarchy 1 [] None foo fresh = (Normal 0, fresh)
  ∧ nodeLevelOf hierarchy 1 [] (Some foo) foobar fresh
    = (Normal (0 + 1), setEntry foobar (mkEntry (Inner foo) (0 + 1)) fresh).
Proof.
  assert (H0 : nodeLevelOf hierarchy 1 [] None foo fresh = (Normal 0, fresh))
    by reflexivity.
  split; [exact H0|].
  exact (C7_prefix_without_boundary hierarchy 1 [] None foo foobar ".foo" "bar"
           fresh fresh 0 eq_refl eq_refl eq_refl eq_refl eq_refl eq_refl H0).
Defined.

Lemma C8_witness :
  distinct_nodes chain
  ∧ NoDup (sets (invoke hierarchy 2 chain ∅).2).*1.
Proof.
  assert (Hd : distinct_nodes chain).
  { unfold distinct_nodes. apply (bool_decide_unpack _). vm_compute. exact I. }
  split; [exact Hd|].
  exact (proj1 (C8_write_once hierarchy 2 chain ∅ Hd)).
Defined.

Lemma C9_witness :
  Exists (λ t, Text.has_nonspace t = false) (Text.after_newlines dangling)
  ∧ (checkValue two_spaces margin dangling 1 fresh).1 = Throw
  ∧ Forall (λ t, Text.has_nonspace t = true) (Text.after_newlines two_lines)
  ∧ (checkSelector two_spaces body two_lines 0 fresh).1 = Normal tt.
Proof.
  assert (H1 : Exists (λ t, Text.has_nonspace t = false) (Text.after_newlines dangling))
    by (by left).
  assert (H2 : Forall (λ t, Text.has_nonspace t = true) (Text.after_newlines two_lines))
    by (repeat constructor).
  split; [exact H1|]. split; [|split; [exact H2|]].
  - exact (proj1 (proj2 (proj2 (C9_newline_checks_partial two_spaces margin dangling 1 fresh) H1))).
  - exact (proj2 (proj1 (C9_newline_checks_partial two_spaces body two_lines 0 fresh) H2)).
Defined.

Lemma C10_witness :
  distinct_nodes chain
  ∧ (invoke hierarchy 5 chain ∅).1 ≠ Diverge
  ∧ peerSearch 5 (hierarchyMap (invoke hierarchy 5 chain ∅).2) "A D" (Inner ruleABC)
    ≠ Diverge.
Proof.
  assert (Hd : distinct_nodes chain).
  { unfold distinct_nodes. apply (bool_decide_unpack _). vm_compute. exact I. }
  split; [exact Hd|].
  destruct (C10_peer_search_terminates hierarchy 5 chain ∅ Hd) as (H1 & _ & _ & H4).
  - intros k e Hl. by rewrite lookup_empty in Hl.
  - vm_compute. lia.
  - split; [exact H1|]. apply H4.
    do 2 apply list_elem_of_further. apply list_elem_of_here.
Defined.

(** The state is not created anew for an invocation: the second
    invocation starts from the map the first one left, and a level recorded
    for a node of [sheet] is still there after a later run on [chain]. *)
Lemma C1_counterexample :
  after_invocations two_spaces 1 [sheet] ∅ ≠ ∅
  ∧ level <$> after_invocations two_spaces 1 [sheet] ∅ !! oid margin = Some 1
  ∧ level <$> hierarchyMap
                (invoke two_spaces 1 chain
                   (after_invocations two_spaces 1 [sheet] ∅)).2 !! oid margin
    = Some 1.
Proof.
  split; [|by vm_compute].
  intros H. apply (f_equal (λ m : hmap, m !! oid margin)) in H.
  vm_compute in H. discriminate H.
Qed.

(** The map is shared by all rule functions: a run with other options on
    the same tree does change what a later run reports. *)
Example other_configuration_influences :
  let deep := declaration 3 (nl +:+ "  ") "x" 3 in
  let tree := mkRoot [block 1 "a" "" nl 1 5 [block 2 "b" nl nl 2 4 [deep]]] in
  let blocks_in_hierarchy :=
    mkConfig (spaces 2) (Some (mkOptions ["block"%string] true)) in
  result (invoke blocks_in_hierarchy 3 tree ∅).2 = []
  ∧ result (invoke blocks_in_hierarchy 3 tree
              (hierarchyMap (invoke two_spaces 3 tree ∅).2)).2
    = [mkWarning "Expected indentation of 4 spaces at line 3" 3 3].
Proof. by vm_compute. Qed.

(** With hierarchicalSelectors, a declaration in an at-rule without entry
    inside a rule with entry is given the level of the at-rule: the count
    kept by [indentationLevel] is dropped where the map answers. *)
Example hierarchical_mode_loses_a_level :
  let inner := declaration 4 (nl +:+ "      ") "red" 4 in
  let media := mkNode 3 atrule (nl +:+ "    ") (Some (nl +:+ "    ")) None None 3 5
                 [inner] in
  let tree := mkRoot [block 1 ".a" "" "" 1 1 [];
                      block 2 ".a .b" (nl +:+ "  ") (nl +:+ "  ") 2 6 [media]] in
  result (invoke hierarchy 3 tree ∅).2
  = [mkWarning "Expected indentation of 4 spaces at line 4" 4 4].
Proof. by vm_compute. Qed.

(* ===================================================================== *)
(** ** Further properties of the checks *)
(* ===================================================================== *)

Lemma contains_newline_truthy (a : string) :
  Text.contains_newline a = true → JS.truthy (Some a) = true.
Proof. by destruct a. Qed.

(** X1: the closing-brace check (lines 87-99): a violation is reported, at the
    node's end line, exactly when the node has an [after] text that
    contains a newline and whose part after the last newline is not the
    expected whitespace; a node without [after] (a declaration), with an
    empty one or with one on a single line is never reported. *)
Theorem X1_trailing_whitespace (cfg : config) (n : node) (lvl : Z) (s : state) :
  let expected := JS.repeat (indentChar cfg) lvl in
  let wrong := ∃ a, after n = Some a
                    ∧ Text.contains_newline a = true
                    ∧ Text.after_last_newline a ≠ expected in
  (wrong → checkAfter cfg n lvl expected s
           = (Normal tt, addWarnings s [violation cfg n lvl (end_line n)]))
  ∧ (¬ wrong → checkAfter cfg n lvl expected s = (Normal tt, s)).
Proof.
  cbn zeta. unfold checkAfter. split.
  - intros (a & -> & Hc & Hne).
    rewrite (contains_newline_truthy a Hc), TextFacts.indexOf_newline, Hc.
    rewrite TextFacts.slice_lastIndexOf.
    apply String.eqb_neq in Hne. rewrite Hne. simpl. apply report_run.
  - intros Hnot. destruct (after n) as [a|]; [|done].
    rewrite TextFacts.indexOf_newline, TextFacts.slice_lastIndexOf.
    destruct (JS.truthy (Some a)); [|done].
    destruct (Text.contains_newline a) eqn:Hc; [|done].
    destruct (String.eqb_spec (Text.after_last_newline a)
                (JS.repeat (indentChar cfg) lvl)) as [Heq|Hne]; [done|].
    exfalso. apply Hnot. by exists a.
Qed.

(** The warnings listed by [newline_violations], one by one. *)
Lemma newline_violations_lookup cfg n lvl : ∀ tails k w,
  w ∈ newline_violations cfg n lvl k tails ↔
  ∃ (i : nat) t, tails !! i = Some t
    ∧ Text.whitespace_run t ≠ JS.repeat (indentChar cfg) lvl
    ∧ w = violation cfg n lvl (start_line n + (k + Z.of_nat i)).
Proof.
  induction tails as [|t tails IH]; intros k w; cbn [newline_violations].
  - split; [by intros ?%elem_of_nil | by intros (i & t & ? & _)].
  - rewrite elem_of_app, IH. split.
    + intros [Hw|(i & t' & Hi & Hne & ->)].
      * destruct (String.eqb_spec (Text.whitespace_run t)
                    (JS.repeat (indentChar cfg) lvl)) as [|Hne];
          [by apply elem_of_nil in Hw|].
        apply list_elem_of_singleton in Hw as ->.
        exists 0%nat, t. repeat split; [done|]. do 2 f_equal. lia.
      * exists (S i), t'. repeat split; [done..|]. do 2 f_equal. lia.
    + intros ([|i] & t' & Hi & Hne & ->).
      * injection Hi as ->. left.
        apply String.eqb_neq in Hne. rewrite Hne.
        apply list_elem_of_singleton. do 2 f_equal. lia.
      * right. exists i, t'. repeat split; [done..|]. do 2 f_equal. lia.
Qed.

(** X2: the multi-line selector check (lines 165-186).  When every newline of
    the selector is followed by some non-whitespace character, the check
    completes and reports exactly the list [newline_violations]: in order,
    one violation, and one only, for each newline whose following
    whitespace run is not the indent unit repeated [ruleLevel] times; the
    violation for the newline number [i + 1] is at the rule's start line
    plus [i + 1].  The level is the rule's own: no exception applies. *)
Theorem X2_selector_check (cfg : config) (n : node) (sel : string)
    (ruleLevel : Z) (s : state) :
  Forall (λ t, Text.has_nonspace t = true) (Text.after_newlines sel) →
  let ws := newline_violations cfg n ruleLevel 1 (Text.after_newlines sel) in
  checkSelector cfg n sel ruleLevel s = (Normal tt, addWarnings s ws)
  ∧ (∀ w, w ∈ ws ↔
       ∃ (i : nat) t, Text.after_newlines sel !! i = Some t
         ∧ Text.whitespace_run t ≠ JS.repeat (indentChar cfg) ruleLevel
         ∧ w = violation cfg n ruleLevel (start_line n + (1 + Z.of_nat i)))
  ∧ length ws
    = length (filter (λ t, Text.whitespace_run t ≠ JS.repeat (indentChar cfg) ruleLevel)
                (Text.after_newlines sel)).
Proof.
  intros Hall%forallb_Forall_true. cbn zeta.
  pose proof (checkSelector_run cfg n sel ruleLevel s) as [H1 H2].
  cbn zeta in *. rewrite Hall in H1. specialize (H2 Hall).
  split; [|split].
  - destruct (checkSelector cfg n sel ruleLevel s); simpl in *; congruence.
  - intros w. apply newline_violations_lookup.
  - clear. generalize 1. induction (Text.after_newlines sel) as [|t l IH]; intros k;
      cbn [newline_violations]; [done|].
    rewrite length_app, (IH (k + 1)), filter_cons.
    destruct (String.eqb_spec (Text.whitespace_run t)
                (JS.repeat (indentChar cfg) ruleLevel)) as [Heq|Hne].
    + by rewrite decide_False by (by intros ?).
    + by rewrite decide_True by done.
Qed.

(** The violations of the four regions of a node, in the words used above. *)
Definition leading_violations (cfg : config) (r : root) (n : node) (lvl : Z)
  : list warning :=
  if (isFirst r n || Text.contains_newline (before n))
     && negb (String.eqb (Text.after_last_newline (before n))
                (JS.repeat (indentChar cfg) lvl))
  then [violation cfg n lvl (start_line n)] else [].

Definition trailing_violations (cfg : config) (n : node) (lvl : Z) : list warning :=
  match after n with
  | Some a =>
      if Text.contains_newline a
         && negb (String.eqb (Text.after_last_newline a)
                    (JS.repeat (indentChar cfg) lvl))
      then [violation cfg n lvl (end_line n)] else []
  | None => []
  end.

Definition text_violations (cfg : config) (n : node) (lvl : Z)
    (text : option string) : list warning :=
  match text with
  | Some t => newline_violations cfg n lvl 1 (Text.after_newlines t)
  | None => []
  end.

(** Every newline of the text, if there is a text, is followed by some
    non-whitespace character. *)
Definition lines_end (text : option string) : Prop :=
  ∀ t, text = Some t → Forall (λ u, Text.has_nonspace u = true) (Text.after_newlines t).

Lemma checkBefore_run cfg r n lvl s :
  checkBefore cfg r n lvl (JS.repeat (indentChar cfg) lvl) s
  = (Normal tt, addWarnings s (leading_violations cfg r n lvl)).
Proof.
  unfold checkBefore, leading_violations. cbn zeta.
  rewrite TextFacts.slice_lastIndexOf, TextFacts.indexOf_newline, negb_involutive.
  destruct (_ && _); simpl; [apply report_run | by rewrite addWarnings_nil].
Qed.

Lemma checkAfter_run cfg n lvl s :
  checkAfter cfg n lvl (JS.repeat (indentChar cfg) lvl) s
  = (Normal tt, addWarnings s (trailing_violations cfg n lvl)).
Proof.
  unfold checkAfter, trailing_violations.
  destruct (after n) as [a|]; [|by rewrite addWarnings_nil].
  rewrite TextFacts.slice_lastIndexOf, TextFacts.indexOf_newline, negb_involutive.
  destruct (Text.contains_newline a) eqn:Hc.
  - rewrite (contains_newline_truthy a Hc). simpl.
    destruct (negb _); simpl; [apply report_run | by rewrite addWarnings_nil].
  - rewrite andb_false_r. simpl. by rewrite addWarnings_nil.
Qed.

Lemma checkText_value cfg n lvl s :
  lines_end (value n) →
  match value n with
  | Some v => when (JS.truthy (Some v)) (checkValue cfg n v lvl)
  | None => mret tt
  end s
  = (Normal tt, addWarnings s (text_violations cfg n (valueLevelOf cfg lvl) (value n))).
Proof.
  intros Hend. unfold text_violations. destruct (value n) as [v|];
    [|by rewrite addWarnings_nil].
  specialize (Hend v eq_refl). apply forallb_Forall_true in Hend.
  destruct v as [|c v]; [by rewrite addWarnings_nil|]. cbn [JS.truthy when].
  pose proof (checkValue_run cfg n (String c v) lvl s) as [H1 H2].
  cbn zeta in *. rewrite Hend in H1. specialize (H2 Hend).
  destruct (checkValue cfg n (String c v) lvl s); simpl in *; congruence.
Qed.

Lemma checkText_selector cfg n lvl s :
  lines_end (selector n) →
  match selector n with
  | Some sel => when (JS.truthy (Some sel)) (checkSelector cfg n sel lvl)
  | None => mret tt
  end s
  = (Normal tt, addWarnings s (text_violations cfg n lvl (selector n))).
Proof.
  intros Hend. unfold text_violations. destruct (selector n) as [v|];
    [|by rewrite addWarnings_nil].
  specialize (Hend v eq_refl). apply forallb_Forall_true in Hend.
  destruct v as [|c v]; [by rewrite addWarnings_nil|]. cbn [JS.truthy when].
  pose proof (checkSelector_run cfg n (String c v) lvl s) as [H1 H2].
  cbn zeta in *. rewrite Hend in H1. specialize (H2 Hend).
  destruct (checkSelector cfg n (String c v) lvl s); simpl in *; congruence.
Qed.

Lemma visit_reports cfg fuel r ancestors prev n lvl s s1 :
  type n ≠ comment →
  nodeLevelOf cfg fuel ancestors prev n s = (Normal lvl, s1) →
  lines_end (value n) → lines_end (selector n) →
  callback cfg fuel r ancestors prev n s
  = (Normal tt,
     addWarnings s1
       (leading_violations cfg r n lvl
        ++ trailing_violations cfg n lvl
        ++ text_violations cfg n (valueLevelOf cfg lvl) (value n)
        ++ text_violations cfg n lvl (selector n))).
Proof.
  intros Hty Hlvl Hv Hs. rewrite callback_eq.
  destruct (node_type_eqb (type n) comment) eqn:Hc; [by destruct (type n)|].
  rewrite bind_run, Hlvl. unfold checksOf. cbn zeta.
  rewrite bind_run, checkBefore_run, bind_run, checkAfter_run, bind_run.
  rewrite (checkText_value cfg n lvl _ Hv), (checkText_selector cfg n lvl _ Hs).
  by rewrite !addWarnings_app.
Qed.

(** X3: what one visit reports (lines 62-109).  For a rule, at-rule or
    declaration whose level was found to be [lvl], and whose value and
    selector have no newline followed by whitespace only, the callback
    completes and appends, in this order, the violation of the leading
    whitespace, that of the trailing whitespace, those of the value (at
    the value level) and those of the selector; it reports nothing else,
    so a node whose four regions are as expected adds no warning. *)
Theorem X3_visit_reports (cfg : config) (fuel : nat) (r : root)
    (ancestors : list node) (prev : option node) (n : node)
    (lvl : Z) (s s1 : state) :
  type n ≠ comment →
  nodeLevelOf cfg fuel ancestors prev n s = (Normal lvl, s1) →
  lines_end (value n) → lines_end (selector n) →
  callback cfg fuel r ancestors prev n s
  = (Normal tt,
     addWarnings s1
       (leading_violations cfg r n lvl
        ++ trailing_violations cfg n lvl
        ++ text_violations cfg n (valueLevelOf cfg lvl) (value n)
        ++ text_violations cfg n lvl (selector n))).
Proof. apply visit_reports. Qed.

Lemma length_append (a b : string) :
  String.length (a +:+ b) = (String.length a + String.length b)%nat.
Proof. induction a as [|c a IH]; simpl; [done | by rewrite IH]. Qed.

Lemma length_repeat_nat (a : string) (k : nat) :
  String.length (JS.repeat_nat a k) = (k * String.length a)%nat.
Proof. induction k as [|k IH]; simpl; [done|]. by rewrite length_append, IH. Qed.

(** X4: the number in the message is the length of the whitespace expected
    (lines 39, 62, 190): for a level and an indent size that are not
    negative, the expected whitespace has exactly as many characters as the
    message counts tabs or spaces.  For a level of zero or less nothing is
    expected, whatever number the message gives. *)
Theorem X4_expected_width (cfg : config) (lvl : Z) :
  (0 ≤ lvl →
   match space cfg with tab => True | spaces k => 0 ≤ k end →
   Z.of_nat (String.length (JS.repeat (indentChar cfg) lvl))
   = MessageForm.count cfg lvl)
  ∧ (lvl ≤ 0 → JS.repeat (indentChar cfg) lvl = EmptyString).
Proof.
  split.
  - intros Hl Hk. unfold JS.repeat at 1. rewrite length_repeat_nat.
    unfold indentChar, MessageForm.count. destruct (space cfg) as [|k].
    + simpl. lia.
    + unfold JS.repeat. rewrite length_repeat_nat. simpl. nia.
  - intros Hl. unfold JS.repeat. by replace (Z.to_nat lvl) with 0%nat by lia.
Qed.

(* ===================================================================== *)
(** ** Further properties of the levels and of the map *)
(* ===================================================================== *)

Definition blocksFlat (cfg : config) : bool :=
  Utils.optionsHaveException (options cfg) "block".

(** X5: the ancestor walk of [indentationLevel] (lines 112-136) when the map
    has no entry for any ancestor: without the "block" exception the level
    is the number of ancestors; with it, below at least one ancestor, a
    rule or at-rule gets 0 and a declaration 1, however deep they are
    (the ancestors being rules and at-rules). *)
Theorem X5_levels_without_entries (cfg : config) (hm : hmap) (n : node)
    (ancestors : list node) :
  Forall (λ a, hm !! oid a = None) ancestors →
  (blocksFlat cfg = false →
     indentationLevel cfg hm n ancestors 0 = nestedDepth ancestors)
  ∧ (blocksFlat cfg = true → ancestors ≠ [] →
     Forall (λ a, isDecl a = false) ancestors →
     indentationLevel cfg hm n ancestors 0 = if isDecl n then 1 else 0).
Proof.
  intros Hnone. split.
  - intros Hb. unfold nestedDepth.
    assert (Hgen : ∀ m lvl, indentationLevel cfg hm m ancestors lvl
                            = lvl + Z.of_nat (length ancestors)).
    { induction Hnone as [|p anc Hp _ IH]; intros m lvl; cbn [indentationLevel length].
      - lia.
      - unfold blocksFlat in Hb. rewrite Hp, Hb. cbn [andb]. rewrite IH. lia. }
    by rewrite Hgen.
  - intros Hb Hne Hdecl.
    assert (Hgen : ∀ anc, Forall (λ a, hm !! oid a = None) anc →
              Forall (λ a, isDecl a = false) anc → anc ≠ [] →
              ∀ m lvl, indentationLevel cfg hm m anc lvl
                       = lvl + (if isDecl m then 1 else 0)).
    { clear -Hb. intros anc Hn.
      induction Hn as [|p anc Hp Hn IH]; intros Hd Hne m lvl; [done|].
      cbn [indentationLevel]. unfold blocksFlat in Hb. rewrite Hp, Hb. cbn [andb].
      inversion Hd as [|? ? Hdp Hd']; subst.
      assert (Hinner : indentationLevel cfg hm p anc (lvl + 1) = lvl + 1).
      { destruct anc as [|q anc]; [done|].
        rewrite (IH Hd' ltac:(done)), Hdp. lia. }
      rewrite Hinner. unfold isDecl. destruct (node_type_eqb (type m) decl); simpl; lia. }
    by rewrite (Hgen ancestors Hnone Hdecl Hne).
Qed.

(** A state invariant kept by the visit of every node of the tree is kept
    by the invocation. *)
Lemma invariant_of_visits cfg fuel r (P : state → Prop) :
  (∀ ancestors prev n s,
     n ∈ preorder (root_nodes r) → P s →
     P (callback cfg fuel r ancestors prev n s).2) →
  ∀ s, P s → P (check cfg fuel r s).2.
Proof.
  intros Hstep s Hs.
  assert (H : outcome_ok (λ _, P) (λ _, P) ([] ++ preorder (root_nodes r))
                (check cfg fuel r s)).
  { apply (rule_eachInside cfg fuel r (preorder (root_nodes r)) (λ _, P) (λ _, P))
      with (post := []).
    - intros pre post anc pv n s' Ho _ HI.
      pose proof (Hstep anc pv n s' ltac:(rewrite Ho; apply elem_of_app; right; by left) HI)
        as H.
      by destruct (callback cfg fuel r anc pv n s') as [[[]| |] s1].
    - by rewrite app_nil_r.
    - split; [constructor | done].
    - exact Hs. }
  by destruct (check cfg fuel r s) as [[[]| |] s1].
Qed.

#[export] Instance node_type_eq_dec : EqDecision node_type.
Proof. solve_decision. Defined.

Lemma callback_comment cfg fuel r ancestors prev n s :
  type n = comment → callback cfg fuel r ancestors prev n s = (Normal tt, s).
Proof. intros H. rewrite callback_eq. by rewrite H. Qed.

Lemma replay_is_Some lg hm k : is_Some (hm !! k) → is_Some (replay lg hm !! k).
Proof.
  induction lg as [|[k' e] lg IH] using rev_ind; [done|].
  intros H. rewrite replay_snoc. destruct (decide (k' = k)) as [->|Hne].
  - rewrite lookup_insert_eq. by eexists.
  - rewrite lookup_insert_ne by done. by apply IH.
Qed.

Lemma replay_lookup_elem lg hm k e :
  replay lg hm !! k = Some e → hm !! k = Some e ∨ (k, e) ∈ lg.
Proof.
  induction lg as [|[k' e'] lg IH] using rev_ind; [by left|].
  rewrite replay_snoc. destruct (decide (k' = k)) as [->|Hne].
  - rewrite lookup_insert_eq. intros [= ->]. right. apply elem_of_app; right. by left.
  - rewrite lookup_insert_ne by done. intros [?|?]%IH; [by left|].
    right. apply elem_of_app; by left.
Qed.

(** X6: the map only grows, and only at the tree (lines 21-25, 47-60): an
    invocation never removes an entry, leaves the entry of every object
    that is not a node of the tree as it was, and the entries it writes are
    entries of rules, at-rules and declarations of the tree, never of a
    comment. *)
Theorem X6_map_only_grows (cfg : config) (fuel : nat) (r : root) (hm : hmap) :
  let hm' := hierarchyMap (invoke cfg fuel r hm).2 in
  (∀ k, is_Some (hm !! k) → is_Some (hm' !! k))
  ∧ (∀ k, k ∉ oid <$> preorder (root_nodes r) → hm' !! k = hm !! k)
  ∧ (∀ k e, hm' !! k = Some e →
       hm !! k = Some e
       ∨ ∃ m, m ∈ preorder (root_nodes r) ∧ oid m = k ∧ type m ≠ comment).
Proof.
  cbn zeta. unfold invoke.
  destruct (traversal_log cfg fuel r (root_nodes r) [] None (mkState hm [] []))
    as (lg & Hsets & Hmap & Hsub). fold (check cfg fuel r) in Hsets, Hmap.
  simpl in Hsets, Hmap. rewrite Hmap. split; [|split].
  - intros k. apply replay_is_Some.
  - intros k Hk. apply replay_lookup_notin. intros Hin. apply Hk.
    by eapply elem_of_sublist.
  - intros k e [?|Hin]%replay_lookup_elem; [by left|]. right.
    assert (Hinv : Forall (λ ke, ∃ m, m ∈ preorder (root_nodes r)
                                   ∧ oid m = ke.1 ∧ type m ≠ comment)
                     (sets (check cfg fuel r (mkState hm [] [])).2)).
    { apply (invariant_of_visits cfg fuel r
               (λ s, Forall (λ ke, ∃ m, m ∈ preorder (root_nodes r)
                                     ∧ oid m = ke.1 ∧ type m ≠ comment) (sets s)));
        [|constructor].
      intros anc pv n s Hn Hs.
      destruct (decide (type n = comment)) as [Hc|Hc];
        [by rewrite callback_comment|].
      destruct (callback_has_effect cfg fuel r anc pv n s) as [c ws|c ws e0]; [done|].
      simpl. apply Forall_app; split; [done|]. constructor; [|constructor].
      by exists n. }
    rewrite Hsets in Hinv.
    by apply (proj1 (Forall_forall _ _) Hinv (k, e)).
Qed.

Lemma replay_lookup_same lg hm1 hm2 k :
  k ∈ lg.*1 → replay lg hm1 !! k = replay lg hm2 !! k.
Proof.
  induction lg as [|[k' e] lg IH] using rev_ind; [by intros ?%elem_of_nil|].
  rewrite fmap_app, !replay_snoc. simpl. intros Hin.
  destruct (decide (k' = k)) as [->|Hne]; [by rewrite !lookup_insert_eq|].
  rewrite !lookup_insert_ne by done. apply IH.
  apply elem_of_app in Hin as [?|Hin]; [done|].
  by apply list_elem_of_singleton in Hin.
Qed.

Lemma replay_twice lg hm : replay lg (replay lg hm) = replay lg hm.
Proof.
  apply map_eq. intros k. destruct (decide (k ∈ lg.*1)) as [Hin|Hnot].
  - by apply replay_lookup_same.
  - by rewrite replay_lookup_notin.
Qed.

(** X7: running again changes nothing (lines 21-25, 42-60): after any history
    of invocations on the same tree or on trees with other nodes, a further
    invocation on the tree followed by one more leaves the module-level map
    exactly as the first of the two left it. *)
Theorem X7_second_run_keeps_map (cfg : config) (fuel : nat)
    (earlier_trees : list root) (r : root) :
  distinct_nodes r →
  Forall (λ r', r' = r ∨ unrelated r' r) earlier_trees →
  let hm1 := hierarchyMap
               (invoke cfg fuel r (after_invocations cfg fuel earlier_trees ∅)).2 in
  hierarchyMap (invoke cfg fuel r hm1).2 = hm1.
Proof.
  intros Hnd Hall. cbn zeta.
  set (hm0 := after_invocations cfg fuel earlier_trees ∅).
  assert (Hh : harmless cfg fuel r hm0).
  { apply after_invocations_harmless; [done..|]. intros k _. by left. }
  destruct (invoke_harmless cfg fuel r hm0 Hnd Hh) as (_ & _ & Hs0 & Hh1).
  destruct (invoke_harmless cfg fuel r _ Hnd Hh1) as (_ & _ & Hs1 & _).
  destruct (invocation_sets cfg fuel r hm0 Hnd) as (_ & Hm0 & _).
  destruct (invocation_sets cfg fuel r
              (hierarchyMap (invoke cfg fuel r hm0).2) Hnd) as (_ & Hm1 & _).
  cbn zeta in *. rewrite Hm1, Hs1, <- Hs0, Hm0. apply replay_twice.
Qed.


Lemma peerSearch_nothing hm sel :
  (∀ k info, hm !! k = Some info →
     String.prefix (JS.argString (container_selector (superordinate info))) sel = false) →
  ∀ fuel c, peerSearch fuel hm sel c = Normal None
            ∨ peerSearch fuel hm sel c = Diverge.
Proof.
  intros Hno. induction fuel as [|fuel IH]; intros c; [by right|]. cbn [peerSearch].
  destruct (lookupC hm c) as [e|] eqn:He; [|by left].
  rewrite JSFacts.indexOf_zero. destruct c as [|p]; [done|].
  by rewrite (Hno _ _ He).
Qed.



(** X9: a rule that continues nothing keeps its level (lines 215-244): when
    the selector of the node starts neither with the selector of the
    previous sibling nor with the selector of the superordinate of any
    entry of the map, [nodeLevelOf] leaves the state as it was, and the
    level it gives, if it ends, is the one found by [indentationLevel]. *)
Theorem X9_unmatched_rule_keeps_level (cfg : config) (fuel : nat)
    (ancestors : list node) (prev : option node) (n : node) (sel : string)
    (s : state) :
  hierarchical cfg = true →
  selector n = Some sel →
  (∀ p, prev = Some p → String.prefix (JS.argString (selector p)) sel = false) →
  (∀ k info, hierarchyMap s !! k = Some info →
     String.prefix (JS.argString (container_selector (superordinate info))) sel = false) →
  let out := nodeLevelOf cfg fuel ancestors prev n s in
  out.2 = s
  ∧ (out.1 = Normal (indentationLevel cfg (hierarchyMap s) n ancestors 0)
     ∨ out.1 = Diverge).
Proof.
  intros Hh Hsel Hprev Hmap. cbn zeta. unfold nodeLevelOf. rewrite bind_run. simpl.
  rewrite Hh. unfold hierarchicalSelectorsLevel.
  destruct prev as [p|]; [|by split; [|left]].
  destruct (_ || _); [by split; [|left]|]. rewrite Hsel, bind_run. simpl.
  rewrite JSFacts.indexOf_zero, (Hprev p eq_refl).
  destruct (peerSearch_nothing _ sel Hmap fuel (Inner p)) as [->| ->];
    by split; [|auto].
Qed.

(* ===================================================================== *)
(** ** Further properties of the warnings *)
(* ===================================================================== *)

(** The ordinals handed to the callback by [styleSearch] count the
    newlines met so far. *)
Lemma styleSearch_ordinals : ∀ source i c,
  Forall (λ m : Z * Z, c ≤ m.2 < c + Z.of_nat (length (Text.after_newlines source)))
    (Utils.styleSearch_at i c source JS.newline).
Proof.
  induction source as [|ch source IH]; intros i c; [constructor|].
  cbn [Utils.styleSearch_at Text.after_newlines]. rewrite TextFacts.prefix_newline.
  destruct (Ascii.eqb ch JS.LF); [|apply IH].
  constructor; [simpl; lia|].
  eapply Forall_impl; [apply (IH (i + 1) (c + 1))|].
  intros m Hm. simpl in *. lia.
Qed.

Lemma preserves_forEach_Forall {A} P (Q : A → Prop) (f : A → M unit) l :
  Forall Q l → (∀ x, Q x → preserves P (f x)) → preserves P (forEach f l).
Proof.
  intros Hl Hf. induction Hl as [|x l Hx _ IH]; simpl.
  - apply preserves_ret.
  - apply preserves_bind; [by apply Hf | intros _; exact IH].
Qed.

(** Where a warning about the node [m] can be: at its first line, at its
    last line, or as many lines below the first as its value or selector
    has newlines, at most. *)
Definition placed_at (m : node) (w : warning) : Prop :=
  wnode w = oid m
  ∧ (line w = start_line m
     ∨ line w = end_line m
     ∨ ∃ t k, (value m = Some t ∨ selector m = Some t)
              ∧ 1 ≤ k ≤ Z.of_nat (length (Text.after_newlines t))
              ∧ line w = start_line m + k).

Lemma preserves_lines cfg (P : state → Prop) n t lvl :
  (∀ k, 1 ≤ k ≤ Z.of_nat (length (Text.after_newlines t)) →
     preserves P (report (messages_expected
                            (legibleExpectation cfg lvl (start_line n + k)))
                    n (start_line n + k))) →
  preserves P (forEach (checkNewline cfg n t lvl) (Utils.styleSearch t JS.newline)).
Proof.
  intros Hrep.
  apply (preserves_forEach_Forall P _ _ _ (styleSearch_ordinals t 0 1)).
  intros [i k] Hk. simpl in Hk. unfold checkNewline.
  destruct (JS.exec_ws_nonws _); [|apply preserves_throw].
  apply preserves_when, Hrep. lia.
Qed.

(** X10: every warning is about a node of the tree (lines 78-84, 92-98, 153-159,
    176-182): each warning of an invocation names a rule, an at-rule or a
    declaration of the tree, never a comment, and its line is the first
    line of that node, its last line, or the first line plus the ordinal of
    a newline of the node's value or selector. *)
Theorem X10_warnings_are_placed (cfg : config) (fuel : nat) (r : root) (hm : hmap) :
  Forall (λ w, ∃ m, m ∈ preorder (root_nodes r) ∧ type m ≠ comment ∧ placed_at m w)
    (result (invoke cfg fuel r hm).2).
Proof.
  unfold invoke.
  set (Good := λ w, ∃ m, m ∈ preorder (root_nodes r) ∧ type m ≠ comment ∧ placed_at m w).
  apply (invariant_of_visits cfg fuel r (λ s, Forall Good (result s))); [|constructor].
  intros anc pv n s Hn. revert s.
  change (preserves (λ s, Forall Good (result s)) (callback cfg fuel r anc pv n)).
  rewrite callback_eq.
  destruct (node_type_eqb (type n) comment) eqn:Hc; [apply preserves_ret|].
  assert (Hty : type n ≠ comment) by (intros H; by rewrite H in Hc).
  assert (Hrep : ∀ lvl ln,
            (ln = start_line n ∨ ln = end_line n
             ∨ ∃ t k, (value n = Some t ∨ selector n = Some t)
                      ∧ 1 ≤ k ≤ Z.of_nat (length (Text.after_newlines t))
                      ∧ ln = start_line n + k) →
            preserves (λ s, Forall Good (result s))
              (report (messages_expected (legibleExpectation cfg lvl ln)) n ln)).
  { intros lvl ln Hln s Hs. simpl. apply Forall_app; split; [done|].
    constructor; [|constructor]. exists n. by repeat split. }
  apply preserves_bind.
  { intros s Hs.
    by destruct (nodeLevelOf_effect cfg fuel anc pv n s) as [(c & ->)|(e & ->)]. }
  intros lvl. unfold checksOf. cbn zeta.
  apply preserves_bind; [apply preserves_when, Hrep; by left|]. intros _.
  apply preserves_bind; [apply preserves_when, Hrep; right; by left|]. intros _.
  apply preserves_bind.
  { destruct (value n) as [v|] eqn:Hv; [|apply preserves_ret]. apply preserves_when.
    unfold checkValue. destruct (_ =? -1); [apply preserves_ret|].
    apply preserves_lines. intros k Hk. apply Hrep. right; right.
    exists v, k. repeat split; [by left | lia..]. }
  intros _. destruct (selector n) as [v|] eqn:Hv; [|apply preserves_ret].
  apply preserves_when.
  unfold checkSelector. destruct (_ =? -1); [apply preserves_ret|].
  apply preserves_lines. intros k Hk. apply Hrep. right; right.
  exists v, k. repeat split; [by right | lia..].
Qed.

(* ===================================================================== *)
(** ** The levels of a whole tree, without hierarchicalSelectors *)
(* ===================================================================== *)

(** The visits of the traversal: each node with its ancestors, nearest
    first, in the order of the visits. *)
Fixpoint visits_node (ancestors : list node) (n : node) : list (list node * node) :=
  (ancestors, n)
  :: match n with
     | mkNode _ ty _ _ _ _ _ _ children =>
         match ty with
         | rule | atrule =>
             (fix go (l : list node) : list (list node * node) :=
                match l with
                | [] => []
                | c :: l' => visits_node (n :: ancestors) c ++ go l'
                end) children
         | decl | comment => []
         end
     end.

Fixpoint visits (ancestors : list node) (l : list node) : list (list node * node) :=
  match l with
  | [] => []
  | c :: l' => visits_node ancestors c ++ visits ancestors l'
  end.

Lemma visits_node_unfold ancestors n :
  visits_node ancestors n
  = (ancestors, n) :: (if isContainer n then visits (n :: ancestors) (nodes n) else []).
Proof.
  destruct n as [i ty b a sel v l1 l2 ch]. unfold isContainer.
  destruct ty; simpl; f_equal;
    match goal with
    | |- ?f ch = visits ?anc ch =>
        assert (∀ l, f l = visits anc l) as H
          by (induction l as [|c l IH]; simpl; [done | by rewrite IH]);
        apply H
    end.
Qed.

(** The level of a node by its place in the tree: 0 under the root; below
    that the number of ancestors, or, with the "block" exception, 0 for a
    rule or at-rule and 1 for a declaration. *)
Definition flatLevel (cfg : config) (ancestors : list node) (n : node) : Z :=
  match ancestors with
  | [] => 0
  | _ :: _ =>
      if blocksFlat cfg then (if isDecl n then 1 else 0)
      else nestedDepth ancestors
  end.

Definition flatEntry (cfg : config) (v : list node * node) : list (positive * entry) :=
  if node_type_eqb (type v.2) comment then []
  else [(oid v.2, mkEntry (parent v.1) (flatLevel cfg v.1 v.2))].

Definition flatLog (cfg : config) (vs : list (list node * node))
  : list (positive * entry) := flat_map (flatEntry cfg) vs.

(** The parent is a rule or at-rule entered under its own parent at the
    level of its place. *)
Definition parent_entered (cfg : config) (ancestors : list node) (hm : hmap) : Prop :=
  match ancestors with
  | [] => True
  | p :: ancestors' =>
      isContainer p = true
      ∧ hm !! oid p = Some (mkEntry (parent ancestors') (flatLevel cfg ancestors' p))
  end.

Lemma indentationLevel_flat cfg hm ancestors n :
  parent_entered cfg ancestors hm →
  indentationLevel cfg hm n ancestors 0 = flatLevel cfg ancestors n.
Proof.
  destruct ancestors as [|p anc]; [done|]. intros [Hc Hp].
  cbn [indentationLevel flatLevel]. rewrite Hp. cbn [level].
  assert (Hd : isDecl p = false) by (unfold isContainer, isDecl in *; by destruct (type p)).
  change (Utils.optionsHaveException (options cfg) "block") with (blocksFlat cfg).
  destruct anc as [|q anc]; cbn [flatLevel]; destruct (blocksFlat cfg);
    cbn [andb]; rewrite ?Hd;
    unfold isDecl, nestedDepth; destruct (node_type_eqb (type n) decl);
    cbn [negb length]; lia.
Qed.

Lemma callback_flat cfg fuel r ancestors prev n s :
  hierarchical cfg = false → type n ≠ comment →
  parent_entered cfg ancestors (hierarchyMap s) →
  ∃ c ws,
    callback cfg fuel r ancestors prev n s
    = (c, addWarnings
            (setEntry n (mkEntry (parent ancestors) (flatLevel cfg ancestors n)) s) ws).
Proof.
  intros Hh Hty Hp. rewrite callback_eq.
  destruct (node_type_eqb (type n) comment) eqn:Hc; [by destruct (type n)|].
  rewrite bind_run, (nodeLevelOf_plain cfg fuel ancestors prev n s Hh). cbn zeta.
  rewrite (indentationLevel_flat cfg _ ancestors n Hp).
  destruct (reporter_checksOf cfg r n (flatLevel cfg ancestors n)) as (c & ws & _ & ->).
  by exists c, ws.
Qed.

(** The entries written while a part of the tree is traversed are the
    first entries of [flatLog], all of them after a normal end. *)
Definition flat_ok (cfg : config) (expected : list (positive * entry))
    (s : state) (x : completion unit * state) : Prop :=
  ∃ lg, sets x.2 = sets s ++ lg
        ∧ lg `prefix_of` expected
        ∧ (x.1 = Normal tt → lg = expected).

Section FlatLevels.
Variables (cfg : config) (fuel : nat) (r : root).
Hypothesis Hplain : hierarchical cfg = false.

Definition parent_apart (ancestors : list node) (part : list node) : Prop :=
  ∀ p, head ancestors = Some p → oid p ∉ oid <$> part.

Definition walk_flat (n : node) : Prop :=
  ∀ ancestors prev s,
    parent_entered cfg ancestors (hierarchyMap s) →
    NoDup (oid <$> preorder_node n) →
    parent_apart ancestors (preorder_node n) →
    flat_ok cfg (flatLog cfg (visits_node ancestors n)) s
      (walk cfg fuel r ancestors prev n s).

Lemma each_flat_of_walk l :
  Forall walk_flat l →
  ∀ ancestors prev s,
    parent_entered cfg ancestors (hierarchyMap s) →
    NoDup (oid <$> preorder l) →
    parent_apart ancestors (preorder l) →
    flat_ok cfg (flatLog cfg (visits ancestors l)) s
      (eachInside cfg fuel r ancestors prev l s).
Proof.
  induction 1 as [|c l Hc _ IH]; intros ancestors prev s Hp Hnd Hap.
  { exists []. simpl. by rewrite app_nil_r. }
  cbn [preorder visits] in *. rewrite fmap_app in Hnd.
  apply NoDup_app in Hnd as (Hndc & _ & Hndl).
  unfold flatLog. rewrite flat_map_app. fold (flatLog cfg).
  assert (Hapc : parent_apart ancestors (preorder_node c)).
  { intros p Hhd Hin. apply (Hap p Hhd). rewrite fmap_app. apply elem_of_app; by left. }
  assert (Hapl : parent_apart ancestors (preorder l)).
  { intros p Hhd Hin. apply (Hap p Hhd). rewrite fmap_app. apply elem_of_app; by right. }
  destruct (Hc ancestors prev s Hp Hndc Hapc) as (lg1 & Hs1 & Hpre1 & Hall1).
  assert (Hp1 : parent_entered cfg ancestors
                  (hierarchyMap (walk cfg fuel r ancestors prev c s).2)).
  { destruct ancestors as [|p anc]; [done|]. destruct Hp as [Hcont Hp]. split; [done|].
    rewrite frame_walk; [done|]. by apply Hapc. }
  rewrite eachInside_cons_run.
  destruct (walk cfg fuel r ancestors prev c s) as [[[]| |] s1]; simpl in *.
  - specialize (Hall1 eq_refl). subst lg1.
    destruct (IH ancestors (Some c) s1 Hp1 Hndl Hapl) as (lg2 & Hs2 & Hpre2 & Hall2).
    exists (flatLog cfg (visits_node ancestors c) ++ lg2).
    rewrite Hs2, Hs1, app_assoc. split; [done|]. split.
    + by apply prefix_app.
    + intros Hn. by rewrite (Hall2 Hn).
  - exists lg1. split; [done|]. split; [|done]. by apply prefix_app_r.
  - exists lg1. split; [done|]. split; [|done]. by apply prefix_app_r.
Qed.

Lemma walk_flat_all n : walk_flat n.
Proof.
  induction n as [i ty b a sel v l1 l2 ch IH] using node_forall_ind.
  intros ancestors prev s Hp Hnd Hap.
  set (n := mkNode i ty b a sel v l1 l2 ch) in *.
  pose proof (each_flat_of_walk (nodes n) IH) as Hkids. clear IH.
  rewrite visits_node_unfold, walk_run. rewrite preorder_node_unfold in Hnd.
  unfold flatLog. cbn [flat_map]. fold (flatLog cfg). cbn [fst snd] in *.
  destruct (decide (type n = comment)) as [Hc|Hc].
  { rewrite callback_comment by done.
    unfold flatEntry, isContainer. cbn [snd]. rewrite Hc. simpl.
    exists []. by rewrite app_nil_r. }
  destruct (callback_flat cfg fuel r ancestors prev n s Hplain Hc Hp) as (c & ws & ->).
  set (e := mkEntry (parent ancestors) (flatLevel cfg ancestors n)).
  assert (Hentry : flatEntry cfg (ancestors, n) = [(oid n, e)]).
  { unfold flatEntry. cbn [fst snd]. by destruct (type n). }
  rewrite Hentry. rewrite fmap_cons in Hnd. apply NoDup_cons in Hnd as [Hself Hndk].
  destruct c as [[]| |].
  - destruct (isContainer n) eqn:Hcont.
    + destruct (Hkids (n :: ancestors) None
                  (addWarnings (setEntry n e s) ws)) as (lg & Hs & Hpre & Hall).
      * split; [done|]. simpl. by rewrite lookup_insert_eq.
      * done.
      * by intros p [= <-].
      * exists ((oid n, e) :: lg). rewrite Hs. simpl. rewrite <- app_assoc.
        split; [done|]. split.
        -- by apply prefix_cons.
        -- intros Hn. by rewrite (Hall Hn).
    + exists [(oid n, e)]. simpl. by repeat split.
  - exists [(oid n, e)]. simpl. split; [done|]. split; [|done].
    by apply (prefix_app_r [(oid n, e)] [(oid n, e)]).
  - exists [(oid n, e)]. simpl. split; [done|]. split; [|done].
    by apply (prefix_app_r [(oid n, e)] [(oid n, e)]).
Qed.

End FlatLevels.

(** X11: without hierarchicalSelectors the levels follow the tree (lines 47-60,
    112-136): whatever the map held before, an invocation on a tree of
    distinct nodes enters every rule, at-rule and declaration it visits, in
    the order of the visits, under its parent and at the level of its
    place: 0 directly under the root, otherwise its number of ancestors,
    or, with the "block" exception, 0 for a rule or at-rule and 1 for a
    declaration.  An invocation that ends early has entered the first of
    them. *)
Theorem X11_levels_follow_the_tree (cfg : config) (fuel : nat) (r : root) (hm : hmap) :
  hierarchical cfg = false →
  distinct_nodes r →
  let out := invoke cfg fuel r hm in
  sets out.2 `prefix_of` flatLog cfg (visits [] (root_nodes r))
  ∧ (out.1 = Normal tt → sets out.2 = flatLog cfg (visits [] (root_nodes r))).
Proof.
  intros Hh Hnd. cbn zeta. unfold invoke, check.
  assert (Hall : Forall (walk_flat cfg fuel r) (root_nodes r))
    by (apply Forall_forall; intros c _; by apply walk_flat_all).
  destruct (each_flat_of_walk cfg fuel r (root_nodes r) Hall
              [] None (mkState hm [] [])) as (lg & Hs & Hpre & Heq); try done.
  simpl in Hs. by rewrite Hs.
Qed.

(* ===================================================================== *)
(** ** When an invocation completes *)
(* ===================================================================== *)

Lemma peerSearch_no_throw hm sel : ∀ fuel c, peerSearch fuel hm sel c ≠ Throw.
Proof.
  induction fuel as [|fuel IH]; intros c; [done|]. cbn [peerSearch].
  destruct (lookupC hm c) as [e|]; [|done]. destruct (_ =? 0); [done | apply IH].
Qed.

Lemma nodeLevelOf_no_throw cfg fuel ancestors prev n s :
  (type n = rule → selector n ≠ None) →
  (nodeLevelOf cfg fuel ancestors prev n s).1 ≠ Throw.
Proof.
  intros Hsel. unfold nodeLevelOf. rewrite bind_run. simpl.
  destruct (hierarchical cfg); [|done]. unfold hierarchicalSelectorsLevel.
  destruct prev as [p|]; [|done]. destruct (isRule n) eqn:Hr; [|done].
  destruct (isRule p); [|done]. simpl.
  destruct (selector n) as [sel|] eqn:Hs.
  - rewrite bind_run. simpl. destruct (_ =? 0); [done|].
    pose proof (peerSearch_no_throw (hierarchyMap s) sel fuel (Inner p)).
    by destruct (peerSearch fuel (hierarchyMap s) sel (Inner p)) as [[e|]| |].
  - exfalso. apply Hsel; [|done]. unfold isRule in Hr. by destruct (type n).
Qed.

(** The texts of a node the checks can read to the end, and the selector a
    rule must have. *)
Definition readable (n : node) : Prop :=
  lines_end (value n) ∧ lines_end (selector n) ∧ (type n = rule → selector n ≠ None).

(** X12: an invocation completes (lines 42-110, 150, 173, 229-242): on a tree
    of distinct nodes in which every rule has a selector and no value or
    selector has a newline followed by whitespace only, started from a map
    whose entries name earlier superordinates (the empty map is one), an
    invocation neither throws nor runs for ever. *)
Theorem X12_invocation_completes (cfg : config) (fuel : nat) (r : root) (hm : hmap) :
  distinct_nodes r →
  Forall readable (preorder (root_nodes r)) →
  ordered (oid <$> preorder (root_nodes r)) hm →
  (length (preorder (root_nodes r)) < fuel)%nat →
  (invoke cfg fuel r hm).1 = Normal tt.
Proof.
  intros Hnd Hread Hord Hfuel.
  set (order := preorder (root_nodes r)) in *.
  set (Inv := λ (_ : list node) (s : state), ordered (oid <$> order) (hierarchyMap s)).
  set (Ab := λ (_ : completion unit) (_ : state), False).
  assert (Hrule : outcome_ok Inv Ab ([] ++ order) (invoke cfg fuel r hm)).
  { apply (rule_eachInside cfg fuel r order Inv Ab) with (post := []).
    - intros pre post anc pv n s Ho Hctx HI. unfold Inv, Ab in *.
      assert (Hn : readable n).
      { apply (proj1 (Forall_forall _ _) Hread). rewrite Ho.
        apply elem_of_app; right; by left. }
      destruct Hn as (Hv & Hs & Hsel).
      unfold distinct_nodes in Hnd. fold order in Hnd. clear Hord.
      rewrite Ho in Hnd, HI, Hfuel |- *.
      pose proof (callback_ordered cfg fuel r pre post anc pv n s Hnd HI Hctx) as H1.
      destruct (decide (type n = comment)) as [Hc|Hc].
      { by rewrite callback_comment in H1 |- *. }
      pose proof (nodeLevelOf_ends cfg fuel pre post anc pv n s Hnd HI Hctx Hfuel) as H2.
      pose proof (nodeLevelOf_no_throw cfg fuel anc pv n s Hsel) as H3.
      destruct (nodeLevelOf cfg fuel anc pv n s) as [[lvl| |] s1] eqn:Hl; [|done..].
      by rewrite (visit_reports cfg fuel r anc pv n lvl s s1 Hc Hl Hv Hs) in H1 |- *.
    - by rewrite app_nil_r.
    - split; [constructor | done].
    - exact Hord. }
  by destruct (invoke cfg fuel r hm) as [[[]| |] s1].
Qed.

(* ===================================================================== *)
(** ** The warnings of a whole tree, without hierarchicalSelectors *)
(* ===================================================================== *)

(** The violations of one visit, at the level of the node's place. *)
Definition visit_violations (cfg : config) (r : root) (v : list node * node)
  : list warning :=
  if node_type_eqb (type v.2) comment then []
  else
    let lvl := flatLevel cfg v.1 v.2 in
    leading_violations cfg r v.2 lvl
    ++ trailing_violations cfg v.2 lvl
    ++ text_violations cfg v.2 (valueLevelOf cfg lvl) (value v.2)
    ++ text_violations cfg v.2 lvl (selector v.2).

Definition texts_end (n : node) : Prop :=
  lines_end (value n) ∧ lines_end (selector n).

Definition plain_ok (cfg : config) (r : root) (vs : list (list node * node))
    (s : state) (x : completion unit * state) : Prop :=
  x.1 = Normal tt ∧ result x.2 = result s ++ flat_map (visit_violations cfg r) vs.

Section PlainWarnings.
Variables (cfg : config) (fuel : nat) (r : root).
Hypothesis Hplain : hierarchical cfg = false.

Definition walk_plain (n : node) : Prop :=
  ∀ ancestors prev s,
    parent_entered cfg ancestors (hierarchyMap s) →
    NoDup (oid <$> preorder_node n) →
    parent_apart ancestors (preorder_node n) →
    Forall texts_end (preorder_node n) →
    plain_ok cfg r (visits_node ancestors n) s (walk cfg fuel r ancestors prev n s).

Lemma each_plain_of_walk l :
  Forall walk_plain l →
  ∀ ancestors prev s,
    parent_entered cfg ancestors (hierarchyMap s) →
    NoDup (oid <$> preorder l) →
    parent_apart ancestors (preorder l) →
    Forall texts_end (preorder l) →
    plain_ok cfg r (visits ancestors l) s (eachInside cfg fuel r ancestors prev l s).
Proof.
  induction 1 as [|c l Hc _ IH]; intros ancestors prev s Hp Hnd Hap Ht.
  { split; [done|]. simpl. by rewrite app_nil_r. }
  cbn [preorder visits] in *. rewrite fmap_app in Hnd.
  apply NoDup_app in Hnd as (Hndc & _ & Hndl).
  apply Forall_app in Ht as [Htc Htl].
  unfold plain_ok. rewrite flat_map_app.
  assert (Hapc : parent_apart ancestors (preorder_node c)).
  { intros p Hhd Hin. apply (Hap p Hhd). rewrite fmap_app. apply elem_of_app; by left. }
  assert (Hapl : parent_apart ancestors (preorder l)).
  { intros p Hhd Hin. apply (Hap p Hhd). rewrite fmap_app. apply elem_of_app; by right. }
  destruct (Hc ancestors prev s Hp Hndc Hapc Htc) as [Hn1 Hr1].
  assert (Hp1 : parent_entered cfg ancestors
                  (hierarchyMap (walk cfg fuel r ancestors prev c s).2)).
  { destruct ancestors as [|p anc]; [done|]. destruct Hp as [Hcont Hp]. split; [done|].
    rewrite frame_walk; [done|]. by apply Hapc. }
  rewrite eachInside_cons_run.
  destruct (walk cfg fuel r ancestors prev c s) as [[[]| |] s1]; simpl in *; try done.
  destruct (IH ancestors (Some c) s1 Hp1 Hndl Hapl Htl) as [Hn2 Hr2].
  split; [done|]. by rewrite Hr2, Hr1, app_assoc.
Qed.

Lemma walk_plain_all n : walk_plain n.
Proof.
  induction n as [i ty b a sel v l1 l2 ch IH] using node_forall_ind.
  intros ancestors prev s Hp Hnd Hap Ht.
  set (n := mkNode i ty b a sel v l1 l2 ch) in *.
  pose proof (each_plain_of_walk (nodes n) IH) as Hkids. clear IH.
  unfold plain_ok. rewrite visits_node_unfold, walk_run.
  rewrite preorder_node_unfold in Hnd, Ht. cbn [flat_map]. cbn [fst snd] in *.
  apply Forall_cons in Ht as [[Hv Hs] Htk].
  destruct (decide (type n = comment)) as [Hc|Hc].
  { rewrite callback_comment by done.
    unfold visit_violations, isContainer. cbn [snd]. rewrite Hc. simpl.
    split; [done|]. by rewrite app_nil_r. }
  pose proof (nodeLevelOf_plain cfg fuel ancestors prev n s Hplain) as Hl.
  cbn zeta in Hl. rewrite (indentationLevel_flat cfg _ ancestors n Hp) in Hl.
  rewrite (visit_reports cfg fuel r ancestors prev n _ s _ Hc Hl Hv Hs).
  set (e := mkEntry (parent ancestors) (flatLevel cfg ancestors n)).
  assert (Hvis : visit_violations cfg r (ancestors, n)
                 = leading_violations cfg r n (flatLevel cfg ancestors n)
                   ++ trailing_violations cfg n (flatLevel cfg ancestors n)
                   ++ text_violations cfg n
                        (valueLevelOf cfg (flatLevel cfg ancestors n)) (value n)
                   ++ text_violations cfg n (flatLevel cfg ancestors n) (selector n)).
  { unfold visit_violations. cbn [fst snd]. by destruct (type n). }
  rewrite Hvis. clear Hvis.
  match goal with |- context [addWarnings _ ?w] => set (ws := w) end.
  rewrite fmap_cons in Hnd. apply NoDup_cons in Hnd as [Hself Hndk].
  destruct (isContainer n) eqn:Hcont.
  - destruct (Hkids (n :: ancestors) None
                (addWarnings (setEntry n e s) ws)) as [Hn Hr]; [| done | | done |].
    + split; [done|]. simpl. by rewrite lookup_insert_eq.
    + by intros p [= <-].
    + split; [done|]. rewrite Hr. simpl. by rewrite <- !app_assoc.
  - split; [done|]. simpl. by rewrite app_nil_r.
Qed.

End PlainWarnings.

(** X13: without hierarchicalSelectors the warnings are those of the tree
    alone (lines 47-110, 112-136): on a tree of distinct nodes of which no
    value or selector has a newline followed by whitespace only, an
    invocation ends normally and reports, visit by visit, the violations of
    the leading whitespace, the trailing whitespace, the value and the
    selector of each rule, at-rule and declaration at the level of its
    place in the tree.  Neither what the map held before nor the bound on
    the peer search has any part in it. *)
Theorem X13_plain_warnings (cfg : config) (fuel : nat) (r : root) (hm : hmap) :
  hierarchical cfg = false →
  distinct_nodes r →
  Forall texts_end (preorder (root_nodes r)) →
  (invoke cfg fuel r hm).1 = Normal tt
  ∧ result (invoke cfg fuel r hm).2
    = flat_map (visit_violations cfg r) (visits [] (root_nodes r)).
Proof.
  intros Hh Hnd Ht. unfold invoke, check.
  assert (Hall : Forall (walk_plain cfg fuel r) (root_nodes r))
    by (apply Forall_forall; intros c _; by apply walk_plain_all).
  by destruct (each_plain_of_walk cfg fuel r (root_nodes r) Hall
                 [] None (mkState hm [] [])) as [Hn Hr].
Qed.

(* ===================================================================== *)
(** ** Instances of the further properties *)
(* ===================================================================== *)

(** [a {] closed by a brace after a newline and one blank. *)
Definition skewed : node := block 1 "a" "" (nl +:+ " ") 1 2 [].

(** A rule after [A D] whose selector continues no selector of [chain]. *)
Definition ruleB : node := block 5 "B" nl "" 5 5 [].

Lemma X1_witness :
  checkAfter tabs skewed 0 (JS.repeat (indentChar tabs) 0) fresh
  = (Normal tt, addWarnings fresh [violation tabs skewed 0 2])
  ∧ checkAfter two_spaces margin 1 (JS.repeat (indentChar two_spaces) 1) fresh
    = (Normal tt, fresh).
Proof.
  split.
  - apply (proj1 (X1_trailing_whitespace tabs skewed 0 fresh)).
    exists (nl +:+ " "). split; [reflexivity|]. split; [reflexivity|].
    vm_compute. congruence.
  - apply (proj2 (X1_trailing_whitespace two_spaces margin 1 fresh)).
    intros (a & Ha & _). discriminate Ha.
Defined.

Lemma X2_witness :
  Forall (λ t, Text.has_nonspace t = true) (Text.after_newlines two_lines)
  ∧ checkSelector two_spaces body two_lines 0 fresh
    = (Normal tt, addWarnings fresh [violation two_spaces body 0 2]).
Proof.
  assert (H : Forall (λ t, Text.has_nonspace t = true) (Text.after_newlines two_lines))
    by (repeat constructor).
  split; [exact H|].
  exact (proj1 (X2_selector_check two_spaces body two_lines 0 fresh H)).
Defined.

Lemma X3_witness :
  lines_end (value margin) ∧ lines_end (selector margin)
  ∧ callback two_spaces 1 sheet [body] None margin fresh
    = (Normal tt,
       addWarnings (setEntry margin (mkEntry (Inner body) 1) fresh)
         [violation two_spaces margin 2 3]).
Proof.
  assert (Hv : lines_end (value margin)).
  { intros t [= <-]. repeat constructor. }
  assert (Hs : lines_end (selector margin)).
  { intros t Ht. discriminate Ht. }
  split; [exact Hv|]. split; [exact Hs|].
  exact (X3_visit_reports two_spaces 1 sheet [body] None margin 1 fresh
           (setEntry margin (mkEntry (Inner body) 1) fresh)
           ltac:(discriminate) eq_refl Hv Hs).
Defined.

Lemma X4_witness :
  Z.of_nat (String.length (JS.repeat (indentChar two_spaces) 3))
  = MessageForm.count two_spaces 3
  ∧ JS.repeat (indentChar tabs) (-1) = EmptyString.
Proof.
  split.
  - apply (proj1 (X4_expected_width two_spaces 3)); simpl; lia.
  - apply (proj2 (X4_expected_width tabs (-1))). lia.
Defined.

Lemma X5_witness :
  Forall (λ a, (∅ : hmap) !! oid a = None) [middle; outer]
  ∧ indentationLevel two_spaces ∅ innermost [middle; outer] 0 = 2
  ∧ indentationLevel flat_blocks ∅ innermost [middle; outer] 0 = 0.
Proof.
  assert (H : Forall (λ a, (∅ : hmap) !! oid a = None) [middle; outer])
    by (repeat constructor).
  split; [exact H|]. split.
  - exact (proj1 (X5_levels_without_entries two_spaces ∅ innermost [middle; outer] H)
             eq_refl).
  - exact (proj2 (X5_levels_without_entries flat_blocks ∅ innermost [middle; outer] H)
             eq_refl ltac:(discriminate) ltac:(repeat constructor)).
Defined.

Lemma X7_witness :
  distinct_nodes sheet
  ∧ hierarchyMap
      (invoke hierarchy 2 sheet
         (hierarchyMap
            (invoke hierarchy 2 sheet (after_invocations hierarchy 2 [sheet; chain] ∅)).2)).2
    = hierarchyMap
        (invoke hierarchy 2 sheet (after_invocations hierarchy 2 [sheet; chain] ∅)).2.
Proof.
  assert (Hd : distinct_nodes sheet).
  { unfold distinct_nodes. apply (bool_decide_unpack _). vm_compute. exact I. }
  split; [exact Hd|].
  apply (X7_second_run_keeps_map hierarchy 2 [sheet; chain] sheet Hd).
  assert (Hun : unrelated chain sheet).
  { assert (Hf : Forall (λ k, k ∉ oid <$> preorder (root_nodes sheet))
                   (oid <$> preorder (root_nodes chain)))
      by (apply (bool_decide_unpack _); by vm_compute).
    intros k Hk. by apply (proj1 (Forall_forall _ _) Hf). }
  constructor; [by left|]. constructor; [by right | constructor].
Defined.


Lemma X9_witness :
  (nodeLevelOf hierarchy 4 [] (Some ruleAD) ruleB (invoke hierarchy 2 chain ∅).2).2
  = (invoke hierarchy 2 chain ∅).2
  ∧ (nodeLevelOf hierarchy 4 [] (Some ruleAD) ruleB (invoke hierarchy 2 chain ∅).2).1
    = Normal 0.
Proof.
  destruct (X9_unmatched_rule_keeps_level hierarchy 4 [] (Some ruleAD) ruleB "B"
              (invoke hierarchy 2 chain ∅).2 eq_refl eq_refl) as [H1 H2].
  - intros p [= <-]. reflexivity.
  - apply (bool_decide_unpack
             (map_Forall
                (λ (_ : positive) info,
                   String.prefix
                     (JS.argString (container_selector (superordinate info))) "B"
                   = false)
                (hierarchyMap (invoke hierarchy 2 chain ∅).2))).
    vm_compute. exact I.
  - split; [exact H1|]. destruct H2 as [H2|H2]; [exact H2|].
    vm_compute in H2. discriminate H2.
Defined.

Lemma X11_witness :
  distinct_nodes nested
  ∧ sets (invoke flat_blocks 1 nested ∅).2
    = flatLog flat_blocks (visits [] (root_nodes nested))
  ∧ level <$> (flatLog flat_blocks (visits [] (root_nodes nested))).*2 = [0; 0; 0]
  ∧ level <$> (flatLog two_spaces (visits [] (root_nodes nested))).*2 = [0; 1; 2].
Proof.
  assert (Hd : distinct_nodes nested).
  { unfold distinct_nodes. apply (bool_decide_unpack _). vm_compute. exact I. }
  split; [exact Hd|]. split; [|split; reflexivity].
  exact (proj2 (X11_levels_follow_the_tree flat_blocks 1 nested ∅ eq_refl Hd) eq_refl).
Defined.

Lemma X12_witness :
  distinct_nodes chain
  ∧ Forall readable (preorder (root_nodes chain))
  ∧ (invoke hierarchy 5 chain ∅).1 = Normal tt.
Proof.
  assert (Hd : distinct_nodes chain).
  { unfold distinct_nodes. apply (bool_decide_unpack _). vm_compute. exact I. }
  assert (Hr : Forall readable (preorder (root_nodes chain))).
  { repeat constructor; try (intros t Ht; discriminate Ht);
      try (intros t [= <-]; constructor); intros _ Hs; discriminate Hs. }
  split; [exact Hd|]. split; [exact Hr|].
  apply (X12_invocation_completes hierarchy 5 chain ∅ Hd Hr).
  - intros k e Hl. by rewrite lookup_empty in Hl.
  - vm_compute. lia.
Defined.

Lemma X13_witness :
  distinct_nodes sheet
  ∧ Forall texts_end (preorder (root_nodes sheet))
  ∧ result (invoke two_spaces 1 sheet (hierarchyMap (invoke hierarchy 2 chain ∅).2)).2
    = [violation two_spaces margin 2 3].
Proof.
  assert (Hd : distinct_nodes sheet).
  { unfold distinct_nodes. apply (bool_decide_unpack _). vm_compute. exact I. }
  assert (Ht : Forall texts_end (preorder (root_nodes sheet))).
  { repeat constructor; try (intros t Ht; discriminate Ht);
      intros t [= <-]; repeat constructor. }
  split; [exact Hd|]. split; [exact Ht|].
  exact (proj2 (X13_plain_warnings two_spaces 1 sheet
                  (hierarchyMap (invoke hierarchy 2 chain ∅).2) eq_refl Hd Ht)).
Defined.
